(** * Analysis UI controller ([static/js/analyze.js]): a shallow embedding

    The script wires a page to an external object-graph library.  The
    development below embeds its own logic: the JavaScript string and array
    primitives it relies on, the catalog flattening [getKeys], the conversion
    of input rows to retrieval paths, the analysis engine [doAnalyses] over
    an abstract graph interface, and the readiness gate of [analyze].

    Conventions.  A JavaScript string is a [string] (a sequence of code
    units, here one byte each); the default [Array.prototype.sort] order on
    strings is the code-unit order, which is [String.le].  An object is the
    list of its own properties in the order [Object.getOwnPropertyNames]
    reports them.  The page is a finite map from selectors to text
    content. *)

From Stdlib Require Import ZArith Ascii String DecimalString DecimalPos DecimalZ.
From stdpp Require Import base list strings gmap sorting.

Local Open Scope Z_scope.

(** ** JavaScript string primitives used by the script *)

Module JS.

(** [s.length] *)
Definition length (s : string) : Z := Z.of_nat (String.length s).

(** Does [s] start with [p]?  (The test [indexOf] performs at each
    position.) *)
Fixpoint starts_with (p s : string) : bool :=
  match p, s with
  | EmptyString, _ => true
  | String _ _, EmptyString => false
  | String a p', String b s' =>
      if Ascii.eqb a b then starts_with p' s' else false
  end.

(** [s.indexOf(pat)] scanning from position [i]: the first position at
    which [pat] occurs, [-1] when there is none. *)
Fixpoint indexOf_from (s pat : string) (i : Z) : Z :=
  if starts_with pat s then i
  else match s with
       | EmptyString => -1
       | String _ s' => indexOf_from s' pat (i + 1)
       end.

Definition indexOf (s pat : string) : Z := indexOf_from s pat 0.

(** [label.replace(/ /g, '/')] *)
Fixpoint replace_spaces (label : string) : string :=
  match label with
  | EmptyString => EmptyString
  | String c rest =>
      String (if Ascii.eqb c " " then "/"%char else c) (replace_spaces rest)
  end.

(** [s.split('.')]: [cur] holds the segment being read; the result always
    has at least one segment. *)
Fixpoint split_dot_go (cur : string) (s : string) : list string :=
  match s with
  | EmptyString => [String.rev cur]
  | String c rest =>
      if Ascii.eqb c "." then String.rev cur :: split_dot_go EmptyString rest
      else split_dot_go (String c cur) rest
  end.

Definition split_dot (s : string) : list string := split_dot_go EmptyString s.

(** [arr.join(sep)] *)
Fixpoint join (sep : string) (arr : list string) : string :=
  match arr with
  | [] => EmptyString
  | [x] => x
  | x :: rest => x +:+ sep +:+ join sep rest
  end.

(** [arr[arr.length - 1]] on an array of strings; [undefined] is never
    reached on the result of [split]. *)
Definition last_elem (arr : list string) : string := List.last arr EmptyString.

(** [arr.slice(0, arr.length - 1)] *)
Definition slice_init (arr : list string) : list string := List.removelast arr.

(** [arr.reduce(function(acc, a) { return acc.concat(a); }, [])] *)
Definition reduce_concat {A} (arrs : list (list A)) : list A :=
  fold_left (fun acc arr => acc ++ arr) arrs [].

(** Default [sort()] on an array of strings: ascending code-unit order.
    The order is total and antisymmetric, so the sorted array does not
    depend on the engine's algorithm (see [sort_strings_unique]). *)
Definition sort_strings (arr : list string) : list string :=
  merge_sort String.le arr.

End JS.

(** ** The environment catalog and its flattening *)

(** A decoded catalog: a leaf value, or an object given by its own
    properties in enumeration order.  An array is an object too ([typeof]
    is ['object']): its own property names are its indices followed by
    ["length"]. *)
#[local] Unset Elimination Schemes.
Inductive json : Type :=
| JNull
| JBool (b : bool)
| JNum (z : Z)
| JStr (s : string)
| JObj (props : list (string * json)).
#[local] Set Elimination Schemes.

(** [typeof o !== 'object' || o === null] *)
Definition not_object (o : json) : bool :=
  match o with
  | JObj _ => false
  | _ => true
  end.

(** [s ? s + ' ' + key : key]: the empty string is the only falsy string. *)
Definition extend_path (s key : string) : string :=
  match s with
  | EmptyString => key
  | _ => s +:+ " " +:+ key
  end.

(** The [for] loop of [getKeys] over [Object.getOwnPropertyNames(o)]:
    [rtn = rtn.concat(getKeys(o[key], s ? s + ' ' + key : key))], where
    [rec] stands for the recursive call and each own property name comes
    with the value [o[key]] stored under it. *)
Definition getKeys_loop (rec : json -> string -> list string) (s : string)
  : list (string * json) -> list string -> list string :=
  fix loop (ps : list (string * json)) (rtn : list string) : list string :=
    match ps with
    | [] => rtn
    | (key, v) :: ps' => loop ps' (rtn ++ rec v (extend_path s key))
    end.

(** [getKeys(o, s)]; past the first test [o] is an object, and the loop
    runs over its own properties. *)
Fixpoint getKeys (o : json) (s : string) : list string :=
  if not_object o then [s]
  else match o with
       | JObj props => getKeys_loop getKeys s props []
       | _ => []
       end.

(** [o[key]] on the own properties of [o]: the value of the first (and, in
    an object, only) property named [key]. *)
Definition get_prop (props : list (string * json)) (key : string) : option json :=
  snd <$> List.find (fun kv => String.eqb (fst kv) key) props.

(** The property names of an object are pairwise distinct, at every
    depth. *)
Fixpoint distinct_keys (o : json) : Prop :=
  match o with
  | JObj props =>
      NoDup (List.map fst props)
      /\ fold_right (fun kv rest => distinct_keys (snd kv) /\ rest) True props
  | _ => True
  end.

(** The catalog callback: [includeExcludeOpts = getKeys(map, '')]. *)
Definition includeExcludeOpts (map : json) : list string := getKeys map "".

(** Own properties of an array value [[v0, ..., vn-1]]. *)
Definition array_props (elems : list json) : list (string * json) :=
  imap (fun i v => (NilZero.string_of_uint (Nat.to_uint i), v)) elems
  ++ [("length"%string, JNum (Z.of_nat (List.length elems)))].

(** ** Values exchanged with the object-graph library *)

(** Node identifiers are numbers, possibly [NaN]; a lookup may also answer
    [null] or [undefined]. *)
Inductive jsval : Type :=
| VNum (z : Z)
| VNaN
| VNull
| VUndefined.

#[global] Instance jsval_eq_dec : EqDecision jsval.
Proof. solve_decision. Defined.

(** Global [isNaN(v)], that is [Number(v)] is [NaN]. *)
Definition isNaN (v : jsval) : bool :=
  match v with
  | VNaN | VUndefined => true
  | VNum _ | VNull => false
  end.

(** [a === b] *)
Definition strict_eq (a b : jsval) : bool :=
  match a, b with
  | VNum x, VNum y => x =? y
  | VNull, VNull => true
  | VUndefined, VUndefined => true
  | _, _ => false
  end.

(** [String(v)]; identifiers are integers, printed in decimal. *)
Definition ToString (v : jsval) : string :=
  match v with
  | VNum z => NilZero.string_of_int (Z.to_int z)
  | VNaN => "NaN"
  | VNull => "null"
  | VUndefined => "undefined"
  end.

(** The order of the default [sort()]: [undefined] goes last, every other
    pair is compared through [ToString], by code units. *)
Definition sort_le (x y : jsval) : Prop :=
  match x, y with
  | _, VUndefined => True
  | VUndefined, _ => False
  | _, _ => String.le (ToString x) (ToString y)
  end.

#[global] Instance sort_le_dec : RelDecision sort_le.
Proof. intros x y. destruct x, y; simpl; apply _. Defined.

(** Default [sort()] on an array of identifiers. *)
Definition sort_values (arr : list jsval) : list jsval :=
  merge_sort sort_le arr.

(** The capability surface of one graph of the external library.  Each
    field is the method of the same name; [lookup key None] is
    [graph.lookup(key)] and [lookup key (Some id)] is
    [graph.lookup(key, id)]. *)
Record ObjectGraph : Type := {
  root : jsval;
  getAllIds : list jsval;
  isFunction : jsval -> bool;
  isType : jsval -> bool;
  getShortestKey : jsval -> string;
  getObjectKeys : jsval -> list string;
  lookup : string -> option jsval -> jsval;
}.

(** ** The analysis engine *)

Definition newline : string := String (ascii_of_nat 10) EmptyString.

(** [graph.getAllIds().filter(id => !isNaN(id)).sort()] *)
Definition ids (graph : ObjectGraph) : list jsval :=
  sort_values (List.filter (fun id => negb (isNaN id)) (getAllIds graph)).

Definition apis (graph : ObjectGraph) : list string :=
  JS.sort_strings
    (List.map (fun id => getShortestKey graph id)
       (List.filter (fun id => isFunction graph id) (ids graph))).

Definition allStructs (graph : ObjectGraph) : list string :=
  JS.sort_strings
    (List.map (fun id => getShortestKey graph id)
       (List.filter
          (fun id => negb (strict_eq id (root graph)) && negb (isFunction graph id))
          (ids graph))).

(** The "leaf structs" filter over [allStructs]. *)
Definition leaf_structs (allStructs : list string) : list string :=
  List.filter
    (fun struct =>
       negb (existsb
               (fun otherStruct =>
                  (JS.length struct <? JS.length otherStruct)
                  && (JS.indexOf otherStruct struct =? 0))
               allStructs))
    allStructs.

Definition structs (graph : ObjectGraph) : list string :=
  leaf_structs (allStructs graph).

(** The callback mapped over [ids]: the primitive-valued keys of one id,
    rendered under the id's shortest key. *)
Definition primitives_of (graph : ObjectGraph) (id : jsval) : list string :=
  let prefix := getShortestKey graph id in
  let keys := getObjectKeys graph id in
  let a := List.filter (fun key => isType graph (lookup graph key (Some id))) keys in
  List.map (fun key => prefix +:+ "." +:+ key) a.

Definition reserved : list string := ["arguments"; "caller"; "length"; "name"].

Definition primitive_prefix (key : string) : string :=
  JS.join "." (JS.slice_init (JS.split_dot key)).

Definition primitive_postfix (key : string) : string :=
  JS.last_elem (JS.split_dot key).

(** The predicate of the final [filter] over the rendered entries. *)
Definition keep_primitive (graph : ObjectGraph) (key : string) : bool :=
  let postfix := primitive_postfix key in
  let prefix := primitive_prefix key in
  negb (isFunction graph (lookup graph prefix None))
  || negb (existsb (fun name => String.eqb name postfix) reserved).

(** The rendered entries before the reserved-key filter. *)
Definition primitive_entries (graph : ObjectGraph) : list string :=
  JS.reduce_concat (List.map (primitives_of graph) (ids graph)).

Definition primitives (graph : ObjectGraph) : list string :=
  JS.sort_strings (List.filter (keep_primitive graph) (primitive_entries graph)).

(** What one run of the engine amounts to: the three lists, or an
    exception raised by the refinement of the external library. *)
Inductive outcome : Type :=
| Completed (apis structs primitives : list string)
| Thrown.

(** [apisE.textContent = structsE.textContent = primitivesE.textContent = '']
    (assignments run right to left). *)
Definition clear_regions (page : gmap string string) : gmap string string :=
  <["#apis" := ""]> (<["#structs" := ""]> (<["#primitives" := ""]> page)).

Definition write_regions (a s p : list string) (page : gmap string string)
  : gmap string string :=
  <["#primitives" := JS.join newline p]>
    (<["#structs" := JS.join newline s]>
       (<["#apis" := JS.join newline a]> page)).

Section Engine.

(** [analysis.intersectDifference]; [None] when the call throws. *)
Variable intersectDifference :
  list ObjectGraph -> list ObjectGraph -> option ObjectGraph.

(** [doAnalyses(inGraphs, exGraphs)] as a transformer of the page.  The two
    sanity loops over the identifiers only reach [debugger], and
    [console.assert] only logs: they change neither the page nor the
    lists. *)
Definition doAnalyses (inGraphs exGraphs : list ObjectGraph)
    (page : gmap string string) : gmap string string * outcome :=
  let page := clear_regions page in
  match intersectDifference inGraphs exGraphs with
  | None => (page, Thrown)
  | Some graph =>
      let apis := apis graph in
      let structs := structs graph in
      let primitives := primitives graph in
      (write_regions apis structs primitives page,
       Completed apis structs primitives)
  end.

End Engine.

(** ** Input rows and retrieval paths *)

(** An [<input>] element of a row, as far as the script reads it. *)
Record input : Type := { value : string }.

(** [optValueToURL(label)] *)
Definition optValueToURL (label : string) : string :=
  "/data/" +:+ JS.replace_spaces label.

(** One iteration of the loop of [inputPaths]:
    [rtn[i] = optValueToURL(inputs[i].value)].  The loop condition keeps
    [i] below [inputs.length], so the second branch is not taken. *)
Definition inputPaths_body (inputs : list input) (rtn : list (option string))
    (i : nat) : list (option string) :=
  match inputs !! i with
  | Some inp => <[i := Some (optValueToURL (value inp))]> rtn
  | None => rtn
  end.

(** [inputPaths(inputs)]: [new Array(inputs.length)] is an array of holes
    ([None]), filled index by index for [i = 0 .. inputs.length - 1]. *)
Definition inputPaths (inputs : list input) : list (option string) :=
  foldl (inputPaths_body inputs)
        (replicate (List.length inputs) None)
        (seq 0 (List.length inputs)).

(** ** The analyze orchestrator and its readiness gate *)

(** The variables captured by the two completion callbacks, the page, and
    the log of the invocations of [doAnalyses] (oldest first), kept for
    the statements below. *)
Record gate : Type := {
  inGraphs : option (list ObjectGraph);
  exGraphs : option (list ObjectGraph);
  page : gmap string string;
  invocations : list (list ObjectGraph * list ObjectGraph);
}.

(** The completion of one of the two [loadData] batches, with the decoded
    responses it carries. *)
Inductive completion : Type :=
| InLoaded (jsons : list json)
| ExLoaded (jsons : list json).

Section Orchestrator.

(** [ObjectGraph.fromJSON] and [analysis.intersectDifference]. *)
Variable fromJSON : json -> ObjectGraph.
Variable intersectDifference :
  list ObjectGraph -> list ObjectGraph -> option ObjectGraph.

(** [getObjectGraphs(jsons)] *)
Definition getObjectGraphs (jsons : list json) : list ObjectGraph :=
  List.map (fun data => fromJSON data) jsons.

(** [next()]: [if ( inGraphs && exGraphs ) doAnalyses(inGraphs, exGraphs)];
    [null] is falsy, every array (the empty one too) is truthy. *)
Definition next (g : gate) : gate :=
  match inGraphs g, exGraphs g with
  | Some ing, Some exg =>
      {| inGraphs := inGraphs g;
         exGraphs := exGraphs g;
         page := fst (doAnalyses intersectDifference ing exg (page g));
         invocations := invocations g ++ [(ing, exg)] |}
  | _, _ => g
  end.

(** The synchronous part of [analyze()]: the two path arrays, the initial
    gate, and the two [loadData] requests in the order they are issued. *)
Definition analyze (include_inputs exclude_inputs : list input)
    (pg : gmap string string) : gate * list (list (option string)) :=
  let inPaths := inputPaths include_inputs in
  let exPaths := inputPaths exclude_inputs in
  ({| inGraphs := None;
      exGraphs := if (Z.of_nat (List.length exPaths) =? 0) then Some [] else None;
      page := pg;
      invocations := [] |},
   [inPaths; exPaths]).

(** The two [then] callbacks. *)
Definition on_completion (g : gate) (c : completion) : gate :=
  match c with
  | InLoaded jsons =>
      next {| inGraphs := Some (getObjectGraphs jsons);
              exGraphs := exGraphs g;
              page := page g;
              invocations := invocations g |}
  | ExLoaded jsons =>
      next {| inGraphs := inGraphs g;
              exGraphs := Some (getObjectGraphs jsons);
              page := page g;
              invocations := invocations g |}
  end.

(** The gate after the callbacks of [cs] have run, in that order. *)
Definition run (g : gate) (cs : list completion) : gate :=
  foldl on_completion g cs.

(** The gate reached by one analyze action followed by [cs]. *)
Definition analyze_then (include_inputs exclude_inputs : list input)
    (pg : gmap string string) (cs : list completion) : gate :=
  run (fst (analyze include_inputs exclude_inputs pg)) cs.

End Orchestrator.

(** ** A sample result graph *)

(** A small result graph: a root, four structs, one function and one
    malformed identifier. *)
Definition demo_graph : ObjectGraph := {|
  root := VNum 1;
  getAllIds := [VNum 10; VNaN; VNum 2; VNum 1; VNum 3; VNum 4; VNum 5];
  isFunction v := match v with VNum 10 => true | _ => false end;
  isType v := match v with VNull => true | _ => false end;
  getShortestKey v :=
    match v with
    | VNum 1 => "window"
    | VNum 2 => "a"
    | VNum 3 => "a.b"
    | VNum 4 => "a.b.c"
    | VNum 5 => "x"
    | VNum 10 => "f"
    | _ => "?"
    end;
  getObjectKeys v :=
    match v with
    | VNum 4 => ["length"; "n"]
    | VNum 10 => ["length"; "name"; "own"; "prototype"]
    | _ => []
    end;
  lookup key from :=
    match from with
    | Some _ => if String.eqb key "prototype" then VNum 5 else VNull
    | None =>
        if String.eqb key "f" then VNum 10
        else if String.eqb key "a.b.c" then VNum 4
        else VUndefined
    end;
|}.

(** ** Reference notions the flattening is compared with *)

(** The paths (lists of property names) leading from [o] to its leaf
    values, depth first, properties in enumeration order. *)
Fixpoint leaf_paths (o : json) : list (list string) :=
  match o with
  | JObj props =>
      flat_map (fun kv => List.map (cons (fst kv)) (leaf_paths (snd kv))) props
  | _ => [[]]
  end.

(** [path] leads from [o] to a value that is not an object. *)
Inductive leaf_at : json -> list string -> Prop :=
| leaf_here o : not_object o = true -> leaf_at o []
| leaf_below props key v path :
    In (key, v) props -> leaf_at v path -> leaf_at (JObj props) (key :: path).

(** A path without its leading empty segments. *)
Fixpoint drop_leading_empty (path : list string) : list string :=
  match path with
  | EmptyString :: path' => drop_leading_empty path'
  | _ => path
  end.

(** [p] is a literal prefix of [s]. *)
Definition is_prefix (p s : string) : Prop := exists t, s = p +:+ t.

(** No code unit of [s] is a dot. *)
Fixpoint dot_free (s : string) : bool :=
  match s with
  | EmptyString => true
  | String c rest => negb (Ascii.eqb c ".") && dot_free rest
  end.

(** ** The suggestion list and the input rows *)

(** One iteration of the loop of [addOpts]: an [<option>] with value
    [includeExcludeOpts[i]] is appended to the datalist.  A datalist is
    the list of the values of its [<option>] children. *)
Definition addOpts_body (opts : list string) (datalist : list string) (i : nat)
  : list string :=
  match opts !! i with
  | Some v => datalist ++ [v]
  | None => datalist
  end.

(** [addOpts(datalist)], with [opts] the current [includeExcludeOpts]. *)
Definition addOpts (opts : list string) (datalist : list string) : list string :=
  foldl (addOpts_body opts) datalist (seq 0 (List.length opts)).

(** The callback of [loadData('/list')]:
    [includeExcludeOpts = getKeys(map, ''); addOpts(e('#environments'))]. *)
Definition on_list_loaded (map : json) (environments : list string) : list string :=
  addOpts (includeExcludeOpts map) environments.

(** A row of a container: the [<div>] created by [addinputTo], known by
    its node identity, with its [<input>] (and the [list] attribute set on
    it) and the text of its remove button. *)
Record row : Type := {
  row_node : nat;
  row_list : string;
  row_input : input;
  row_rm : string;
}.

(** [addinputTo(container, datalist)], [div] being the node that
    [document.createElement('div')] returns: the new row is appended to
    the children of the container. *)
Definition addinputTo (div : nat) (container : list row) (datalist_id : string)
  : list row :=
  container ++ [ {| row_node := div;
                    row_list := datalist_id;
                    row_input := {| value := "" |};
                    row_rm := "-" |} ].

(** [container.removeChild(div)]: the child of that identity is detached;
    [None] stands for the [NotFoundError] raised when [div] is not a
    child. *)
Fixpoint removeChild (container : list row) (div : nat) : option (list row) :=
  match container with
  | [] => None
  | r :: rest =>
      if Nat.eqb (row_node r) div then Some rest
      else cons r <$> removeChild rest div
  end.

(** The click handler of the remove button of the row [div]; the
    container is left as it is when [removeChild] throws. *)
Definition rm_click (container : list row) (div : nat) : list row :=
  match removeChild container div with
  | Some container' => container'
  | None => container
  end.

(** [container.querySelectorAll('input')]: the inputs in document order. *)
Definition querySelectorAll_input (container : list row) : list input :=
  List.map row_input container.

(** ** Further reference notions *)

(** No code unit of [s] is a space. *)
Fixpoint space_free (s : string) : bool :=
  match s with
  | EmptyString => true
  | String c rest => negb (Ascii.eqb c " ") && space_free rest
  end.

(** No code unit of [s] is a slash. *)
Fixpoint slash_free (s : string) : bool :=
  match s with
  | EmptyString => true
  | String c rest => negb (Ascii.eqb c "/") && slash_free rest
  end.

(** The graph [graph] with another enumeration of its identifiers. *)
Definition with_ids (graph : ObjectGraph) (all : list jsval) : ObjectGraph :=
  {| root := root graph;
     getAllIds := all;
     isFunction := isFunction graph;
     isType := isType graph;
     getShortestKey := getShortestKey graph;
     getObjectKeys := getObjectKeys graph;
     lookup := lookup graph |}.

(** No code unit of [s] is a line feed. *)
Fixpoint lf_free (s : string) : bool :=
  match s with
  | EmptyString => true
  | String c rest => negb (Ascii.eqb c "010") && lf_free rest
  end.

(** The lines of a text: its maximal pieces without a line feed, [cur]
    holding the line being read. *)
Fixpoint lines_go (cur : string) (text : string) : list string :=
  match text with
  | EmptyString => [String.rev cur]
  | String c rest =>
      if Ascii.eqb c "010" then String.rev cur :: lines_go EmptyString rest
      else lines_go (String c cur) rest
  end.

Definition lines (text : string) : list string := lines_go EmptyString text.

(** [text] shows [entries] one per line: its lines are the entries, in
    order; without entries there is no text. *)
Definition one_per_line (text : string) (entries : list string) : Prop :=
  match entries with
  | [] => text = ""
  | _ :: _ => lines text = entries
  end.

(** A result graph with a property name that contains a dot: the object
    [o] is not a function, its property ["g.name"] is primitive-valued,
    and the object found at ["o.g"] is a function. *)
Definition dotted_graph : ObjectGraph := {|
  root := VNum 0;
  getAllIds := [VNum 1];
  isFunction v := match v with VNum 2 => true | _ => false end;
  isType v := match v with VNull => true | _ => false end;
  getShortestKey v := match v with VNum 1 => "o" | VNum 2 => "o.g" | _ => "?" end;
  getObjectKeys v := match v with VNum 1 => ["g.name"] | _ => [] end;
  lookup key from :=
    match from with
    | Some _ => VNull
    | None =>
        if String.eqb key "o" then VNum 1
        else if String.eqb key "o.g" then VNum 2
        else VUndefined
    end;
|}.

(** A result graph whose only function has a line feed in its shortest
    key. *)
Definition multiline_graph : ObjectGraph := {|
  root := VNum 0;
  getAllIds := [VNum 1];
  isFunction v := match v with VNum 1 => true | _ => false end;
  isType v := false;
  getShortestKey v := "a" +:+ newline +:+ "b";
  getObjectKeys v := [];
  lookup key from := VUndefined;
|}.

(** * Properties *)

(** Case analysis on every selector comparison of the goal. *)
Ltac case_selectors :=
  repeat match goal with
         | |- context [decide ?P] => destruct (decide P)
         end;
  first [done | intuition congruence].

(** ** Strings *)

Lemma string_app_cons (x : ascii) (a b : string) :
  String x a +:+ b = String x (a +:+ b).
Proof. reflexivity. Qed.

Lemma string_app_nil_l (a : string) : "" +:+ a = a.
Proof. reflexivity. Qed.

Lemma string_app_empty_r (s : string) : s +:+ "" = s.
Proof. induction s as [|c s IH]; [done|]. by rewrite string_app_cons, IH. Qed.

Lemma string_app_assoc (a b c : string) : (a +:+ b) +:+ c = a +:+ (b +:+ c).
Proof. induction a as [|x a IH]; [done|]. by rewrite !string_app_cons, IH. Qed.

Lemma string_app_length (a b : string) :
  String.length (a +:+ b) = (String.length a + String.length b)%nat.
Proof. induction a as [|x a IH]; [done|]. rewrite string_app_cons. simpl. by rewrite IH. Qed.

Lemma starts_with_is_prefix (p s : string) :
  JS.starts_with p s = true <-> is_prefix p s.
Proof.
  revert s. induction p as [|a p IH]; intros s; simpl.
  - split; [intros _; by exists s | done].
  - destruct s as [|b s].
    + split; [done | intros [t Ht]; discriminate Ht].
    + destruct (Ascii.eqb_spec a b) as [->|Hne].
      * rewrite IH. split; intros [t Ht]; exists t.
        -- by rewrite string_app_cons, <- Ht.
        -- rewrite string_app_cons in Ht. by injection Ht.
      * split; [done | intros [t Ht]; rewrite string_app_cons in Ht; by injection Ht].
Qed.

Lemma indexOf_from_range (s pat : string) (i : Z) :
  JS.indexOf_from s pat i = -1 \/ i <= JS.indexOf_from s pat i.
Proof.
  revert i. induction s as [|c s IH]; intros i; simpl.
  - destruct (JS.starts_with pat ""); [right|left]; lia.
  - destruct (JS.starts_with pat (String c s)); [right; lia|].
    destruct (IH (i + 1)) as [->| ?]; [by left | right; lia].
Qed.

(** [other.indexOf(s) === 0] says that [other] starts with [s]. *)
Lemma indexOf_zero (s pat : string) :
  JS.indexOf s pat = 0 <-> JS.starts_with pat s = true.
Proof.
  unfold JS.indexOf. destruct s as [|c s]; simpl.
  - destruct (JS.starts_with pat ""); split; (done || lia).
  - destruct (JS.starts_with pat (String c s)); [done|].
    split; [|done]. intros H.
    destruct (indexOf_from_range s pat (0 + 1)) as [Hm|Hm]; simpl in *; lia.
Qed.

(** ** Catalog flattening *)

Lemma json_ind (P : json -> Prop) :
  P JNull ->
  (forall b, P (JBool b)) ->
  (forall z, P (JNum z)) ->
  (forall s, P (JStr s)) ->
  (forall props, Forall (fun kv => P (snd kv)) props -> P (JObj props)) ->
  forall o, P o.
Proof.
  intros Hnull Hbool Hnum Hstr Hobj. fix IH 1.
  intros [| b | z | s | props];
    [exact Hnull | apply Hbool | apply Hnum | apply Hstr | apply Hobj].
  induction props as [|[key v] ps IHps]; constructor; [apply IH | exact IHps].
Qed.

Lemma getKeys_loop_acc rec s ps rtn :
  getKeys_loop rec s ps rtn
  = rtn ++ flat_map (fun kv => rec (snd kv) (extend_path s (fst kv))) ps.
Proof.
  revert rtn. induction ps as [|[key v] ps IH]; intros rtn; simpl.
  - by rewrite app_nil_r.
  - rewrite IH. by rewrite <- app_assoc.
Qed.

(** Every option is the prefix extended along one leaf path, leaf by leaf
    in depth-first order. *)
Lemma getKeys_leaf_paths (o : json) :
  forall s, getKeys o s = List.map (fun path => foldl extend_path s path) (leaf_paths o).
Proof.
  induction o as [| b | z | t | props IH] using json_ind; intros s; try done.
  simpl. rewrite getKeys_loop_acc. simpl.
  induction IH as [|[key v] ps Hv _ IHps]; simpl; [done|].
  rewrite IHps, List.map_app, List.map_map. f_equal. apply Hv.
Qed.

Lemma extend_path_nonempty (s key : string) :
  s <> "" -> extend_path s key = s +:+ " " +:+ key /\ extend_path s key <> "".
Proof.
  destruct s as [|c s]; [done|]. intros _. split; [done|].
  unfold extend_path. by rewrite string_app_cons.
Qed.

Lemma foldl_extend_path_join (path : list string) :
  forall s, s <> "" -> foldl extend_path s path = JS.join " " (s :: path).
Proof.
  induction path as [|key path IH]; intros s Hs; [done|].
  destruct (extend_path_nonempty s key Hs) as [Heq Hne].
  cbn [foldl]. rewrite (IH _ Hne), Heq.
  destruct path as [|key' path]; [done|].
  change (JS.join " " (s :: key :: key' :: path))
    with (s +:+ " " +:+ key +:+ " " +:+ JS.join " " (key' :: path)).
  change (JS.join " " ((s +:+ " " +:+ key) :: key' :: path))
    with ((s +:+ " " +:+ key) +:+ " " +:+ JS.join " " (key' :: path)).
  by rewrite !string_app_assoc.
Qed.

(** From the empty root prefix, the segments are joined by single spaces
    once the leading empty ones are gone: an empty accumulated prefix is
    falsy, so nothing is prepended to the next key. *)
Lemma foldl_extend_path_root (path : list string) :
  foldl extend_path "" path = JS.join " " (drop_leading_empty path).
Proof.
  induction path as [|key path IH]; [done|].
  destruct key as [|c key]; [exact IH|].
  cbn [foldl drop_leading_empty extend_path].
  by apply foldl_extend_path_join.
Qed.

Lemma drop_leading_empty_id (path : list string) :
  head path <> Some "" -> drop_leading_empty path = path.
Proof. destruct path as [|[|c key] path]; done. Qed.

(** [leaf_paths] lists exactly the paths that lead to a leaf value. *)
Lemma leaf_paths_leaf_at (o : json) :
  forall path, In path (leaf_paths o) <-> leaf_at o path.
Proof.
  induction o as [| b | z | t | props IH] using json_ind; intros path;
    try (simpl; split;
         [intros [<-|[]]; by constructor
         |inversion 1; subst; by left]).
  simpl. rewrite in_flat_map. split.
  - intros ([key v] & Hin & Hp). simpl in Hp.
    apply in_map_iff in Hp as (rest & <- & Hrest).
    rewrite Forall_forall in IH.
    apply list_elem_of_In in Hin as Hin'.
    apply (leaf_below _ _ _ _ Hin). by apply (IH _ Hin').
  - inversion 1 as [? Hno|? key v rest Hin Hrest]; subst; [done|].
    exists (key, v). split; [done|]. simpl. apply in_map.
    rewrite Forall_forall in IH.
    apply list_elem_of_In in Hin as Hin'. by apply (IH _ Hin').
Qed.

(** In an object, [o[key]] is the value listed with [key]: running the
    loop of [getKeys] over the properties is running it over the names. *)
Lemma get_prop_listed (props : list (string * json)) (key : string) (v : json) :
  NoDup (List.map fst props) -> In (key, v) props -> get_prop props key = Some v.
Proof.
  unfold get_prop. induction props as [|[k w] props IH]; simpl; [done|].
  intros Hnd Hin. apply NoDup_cons in Hnd as [Hk Hnd].
  destruct (String.eqb_spec k key) as [Heq|Hne].
  - subst k. destruct Hin as [[= ->]|Hin]; [done|].
    exfalso. apply Hk, list_elem_of_In, in_map_iff. by exists (key, v).
  - destruct Hin as [[= -> _]|Hin]; [done | by apply IH].
Qed.

(** With distinct property names, distinct leaves have distinct paths. *)
Lemma leaf_paths_NoDup (o : json) : distinct_keys o -> NoDup (leaf_paths o).
Proof.
  induction o as [| b | z | t | props IH] using json_ind;
    try (intros _; apply NoDup_singleton).
  simpl. intros [Hkeys Hsub].
  induction props as [|[key v] props IHprops]; simpl; [constructor|].
  apply Forall_cons in IH as [IHv IH]. destruct Hsub as [Hv Hsub].
  simpl in Hkeys. apply NoDup_cons in Hkeys as [Hkey Hkeys].
  apply NoDup_app. split; [|split].
  - change (List.map ?f ?l) with (f <$> l). apply NoDup_fmap_2; [|by apply IHv].
    by intros p q [= ->].
  - intros path Hhere Hthere.
    apply list_elem_of_In, in_map_iff in Hhere as (rest & <- & _).
    apply list_elem_of_In, in_flat_map in Hthere as ([key' v'] & Hin & Hp).
    apply in_map_iff in Hp as (rest' & [= Hk _] & _). simpl in Hk. subst key'.
    apply Hkey, list_elem_of_In, in_map_iff. by exists (key, v').
  - by apply IHprops.
Qed.

(** C4 as amended: from the empty root prefix, [getKeys] yields one option
    per leaf value (one per leaf path, and distinct leaves have distinct
    paths), in depth-first order with properties in enumeration order;
    each option is the leaf's path joined by single spaces after its
    leading empty segments are dropped, hence the full path joined by
    single spaces unless the path starts with an empty property name. *)
Theorem getKeys_flattens (map : json) :
  includeExcludeOpts map
  = List.map (fun path => JS.join " " (drop_leading_empty path)) (leaf_paths map)
  /\ List.length (includeExcludeOpts map) = List.length (leaf_paths map)
  /\ (forall path, In path (leaf_paths map) <-> leaf_at map path)
  /\ (distinct_keys map -> NoDup (leaf_paths map))
  /\ (forall i path, leaf_paths map !! i = Some path ->
        head path <> Some "" ->
        includeExcludeOpts map !! i = Some (JS.join " " path)).
Proof.
  assert (includeExcludeOpts map
          = List.map (fun path => JS.join " " (drop_leading_empty path))
              (leaf_paths map)) as Heq.
  { unfold includeExcludeOpts. rewrite getKeys_leaf_paths.
    apply List.map_ext. intros path. apply foldl_extend_path_root. }
  split; [exact Heq|]. split; [|split; [|split]].
  - by rewrite Heq, List.length_map.
  - apply leaf_paths_leaf_at.
  - apply leaf_paths_NoDup.
  - intros i path Hi Hhd. rewrite Heq.
    change (List.map ?f ?l) with (f <$> l). rewrite list_lookup_fmap, Hi. simpl.
    by rewrite drop_leading_empty_id.
Qed.

(** C4 as stated fails on a catalog with an empty property name at its
    root: the option of the leaf under ["" ; "a"] is ["a"], not [" a"]. *)
Lemma getKeys_flattens_counterexample :
  let map := JObj [("", JObj [("a", JNull)])] in
  leaf_paths map = [[""; "a"]]
  /\ includeExcludeOpts map = ["a"]
  /\ includeExcludeOpts map <> List.map (JS.join " ") (leaf_paths map).
Proof. vm_compute. split; [done|]. split; [done|]. discriminate. Qed.

Lemma getKeys_flattens_witness :
  includeExcludeOpts
    (JObj [("chrome", JObj [("56", JObj [("linux", JNull); ("osx", JNull)]);
                             ("57", JNull)]);
           ("firefox", JObj [("50", JNull)])])
    !! 1%nat
  = Some "chrome 56 osx".
Proof.
  destruct (getKeys_flattens
              (JObj [("chrome", JObj [("56", JObj [("linux", JNull); ("osx", JNull)]);
                                       ("57", JNull)]);
                     ("firefox", JObj [("50", JNull)])]))
    as (_ & _ & _ & _ & H).
  apply (H 1%nat ["chrome"; "56"; "osx"]); [reflexivity | discriminate].
Defined.

(** An array is flattened as the object it is: one option per index and
    one for its [length]. *)
Example getKeys_array :
  includeExcludeOpts (JObj [("chrome", JObj (array_props [JStr "56"; JStr "57"]))])
  = ["chrome 0"; "chrome 1"; "chrome length"].
Proof. reflexivity. Qed.

(** C10: on a value that is not an object (or is [null]) [getKeys] answers
    the accumulated prefix alone, so a non-object root yields the single
    option [""]; an object without own properties yields no option. *)
Theorem getKeys_edge_cases :
  (forall o s, not_object o = true -> getKeys o s = [s])
  /\ (forall o, not_object o = true -> includeExcludeOpts o = [""])
  /\ (forall s, getKeys (JObj []) s = []).
Proof.
  split; [|split].
  - intros o s Ho. by destruct o.
  - intros o Ho. unfold includeExcludeOpts. by destruct o.
  - done.
Qed.

Lemma getKeys_edge_cases_witness :
  getKeys (JNum 7) "chrome" = ["chrome"] /\ includeExcludeOpts JNull = [""].
Proof.
  destruct getKeys_edge_cases as (H1 & H2 & _).
  split; [by apply H1 | by apply H2].
Defined.

(** ** Retrieval paths *)

Lemma replace_spaces_length (label : string) :
  String.length (JS.replace_spaces label) = String.length label.
Proof. induction label as [|c rest IH]; simpl; [done | by rewrite IH]. Qed.

Lemma replace_spaces_get (label : string) :
  forall i c, String.get i label = Some c ->
    String.get i (JS.replace_spaces label)
    = Some (if Ascii.eqb c " " then "/"%char else c).
Proof.
  induction label as [|d rest IH]; intros i c; simpl; [done|].
  destruct i as [|i]; [intros [= ->]; done | apply IH].
Qed.

(** The state of [rtn] after [k] iterations of the loop of [inputPaths]. *)
Lemma inputPaths_loop_invariant (inputs : list input) (k : nat) :
  (k <= List.length inputs)%nat ->
  foldl (inputPaths_body inputs) (replicate (List.length inputs) None) (seq 0 k)
  = ((fun inp => Some (optValueToURL (value inp))) <$> take k inputs)
    ++ replicate (List.length inputs - k) None.
Proof.
  induction k as [|k IH]; intros Hk.
  - simpl. by rewrite Nat.sub_0_r.
  - rewrite seq_S, foldl_app, IH by lia. simpl.
    destruct (lookup_lt_is_Some_2 inputs k) as [inp Hinp]; [lia|].
    unfold inputPaths_body. rewrite Hinp.
    rewrite (take_S_r _ _ _ Hinp), fmap_app. simpl.
    replace (List.length inputs - k)%nat with (S (List.length inputs - S k)) by lia.
    rewrite <- app_assoc. simpl.
    rewrite insert_app_r_alt; rewrite length_fmap, length_take; [|lia].
    replace (k - k `min` List.length inputs)%nat with 0%nat by lia.
    done.
Qed.

Lemma inputPaths_map (inputs : list input) :
  inputPaths inputs
  = List.map (fun inp => Some (optValueToURL (value inp))) inputs.
Proof.
  unfold inputPaths. rewrite inputPaths_loop_invariant by lia.
  rewrite take_ge by lia. rewrite Nat.sub_diag. simpl.
  by rewrite app_nil_r.
Qed.

(** C6: every row read yields exactly one retrieval path, in row order:
    the routing prefix ["/data/"] followed by the row's value with every
    space replaced by ["/"]; rows are not filtered, and an empty row yields
    the routing prefix itself.  These arrays are what [analyze()] hands to
    the two retrievals. *)
Theorem inputPaths_one_per_row (inputs : list input) :
  inputPaths inputs
  = List.map (fun inp => Some ("/data/" +:+ JS.replace_spaces (value inp))) inputs
  /\ List.length (inputPaths inputs) = List.length inputs
  /\ (forall i inp, inputs !! i = Some inp ->
        inputPaths inputs !! i = Some (Some (optValueToURL (value inp))))
  /\ (forall label,
        String.length (JS.replace_spaces label) = String.length label
        /\ forall i c, String.get i label = Some c ->
             String.get i (JS.replace_spaces label)
             = Some (if Ascii.eqb c " " then "/"%char else c))
  /\ optValueToURL "" = "/data/"
  /\ (forall exclude pg,
        snd (analyze inputs exclude pg) = [inputPaths inputs; inputPaths exclude]).
Proof.
  split; [apply inputPaths_map|]. split; [|split; [|split; [|split]]].
  - by rewrite inputPaths_map, List.length_map.
  - intros i inp Hi. rewrite inputPaths_map.
    change (List.map ?f ?l) with (f <$> l). by rewrite list_lookup_fmap, Hi.
  - intros label. split; [apply replace_spaces_length | apply replace_spaces_get].
  - done.
  - done.
Qed.

Lemma inputPaths_one_per_row_witness :
  inputPaths [ {| value := "chrome 56 linux" |}; {| value := "" |} ]
  = [Some "/data/chrome/56/linux"; Some "/data/"].
Proof.
  destruct (inputPaths_one_per_row
              [ {| value := "chrome 56 linux" |}; {| value := "" |} ])
    as (H & _).
  exact H.
Defined.

(** ** The default sort *)

#[global] Instance sort_le_total : Total sort_le.
Proof.
  intros x y.
  destruct (decide (y = VUndefined)) as [->|Hy]; [left; by destruct x|].
  destruct (decide (x = VUndefined)) as [->|Hx]; [right; by destruct y|].
  destruct (total String.le (ToString x) (ToString y)); [left|right];
    destruct x, y; done.
Qed.

#[global] Instance sort_le_trans : Transitive sort_le.
Proof.
  intros x y z Hxy Hyz.
  destruct (decide (z = VUndefined)) as [->|Hz]; [by destruct x|].
  destruct (decide (y = VUndefined)) as [->|Hy]; [by destruct z|].
  destruct (decide (x = VUndefined)) as [->|Hx]; [by destruct y|].
  assert (String.le (ToString x) (ToString y)) by (destruct x, y; done).
  assert (String.le (ToString y) (ToString z)) by (destruct y, z; done).
  assert (String.le (ToString x) (ToString z)) by (by etrans).
  destruct x, z; done.
Qed.

Lemma to_int_not_nil (z : Z) :
  Z.to_int z <> Decimal.Pos Decimal.Nil /\ Z.to_int z <> Decimal.Neg Decimal.Nil.
Proof.
  destruct z as [|p|p]; simpl; split; try discriminate;
    intros [= H]; by apply DecimalPos.Unsigned.to_uint_nonnil in H.
Qed.

Lemma ToString_num_inj (a b : Z) : ToString (VNum a) = ToString (VNum b) -> a = b.
Proof.
  simpl. intros H.
  apply (f_equal NilZero.int_of_string) in H.
  destruct (to_int_not_nil a), (to_int_not_nil b).
  rewrite !NilZero.isi in H by done.
  injection H as H. by apply DecimalZ.to_int_inj.
Qed.

Lemma ToString_num_parses (a : Z) :
  NilZero.int_of_string (ToString (VNum a)) = Some (Z.to_int a).
Proof. simpl. destruct (to_int_not_nil a). by apply NilZero.isi. Qed.

Lemma ToString_inj (x y : jsval) : ToString x = ToString y -> x = y.
Proof.
  destruct x as [a| | |], y as [b| | |]; try done;
    try (intros H; apply (f_equal NilZero.int_of_string) in H;
         rewrite ToString_num_parses in H; vm_compute in H; discriminate H).
  intros H. f_equal. by apply ToString_num_inj.
Qed.

#[global] Instance sort_le_antisym : AntiSymm (=) sort_le.
Proof.
  intros x y Hxy Hyx.
  destruct (decide (x = VUndefined)) as [->|Hx]; [by destruct y|].
  destruct (decide (y = VUndefined)) as [->|Hy]; [by destruct x|].
  apply ToString_inj. apply (anti_symm String.le); destruct x, y; done.
Qed.

(** The sorted array is the only ascending arrangement of the elements: it
    does not depend on the algorithm behind [sort()]. *)
Lemma sort_values_unique (arr sorted : list jsval) :
  sorted ≡ₚ arr -> Sorted sort_le sorted -> sorted = sort_values arr.
Proof.
  intros Hperm Hsorted. apply (Sorted_unique sort_le); [done| |].
  - apply Sorted_merge_sort; apply _.
  - unfold sort_values. by rewrite merge_sort_Permutation.
Qed.

Lemma sort_strings_unique (arr sorted : list string) :
  sorted ≡ₚ arr -> Sorted String.le sorted -> sorted = JS.sort_strings arr.
Proof.
  intros Hperm Hsorted. apply (Sorted_unique String.le); [done| |].
  - apply Sorted_merge_sort; apply _.
  - unfold JS.sort_strings. by rewrite merge_sort_Permutation.
Qed.

Lemma sort_strings_sorted (arr : list string) :
  StronglySorted String.le (JS.sort_strings arr).
Proof. apply StronglySorted_merge_sort; apply _. Qed.

Lemma sort_strings_perm (arr : list string) : JS.sort_strings arr ≡ₚ arr.
Proof. apply merge_sort_Permutation. Qed.

Lemma sort_strings_In (arr : list string) (s : string) :
  In s (JS.sort_strings arr) <-> In s arr.
Proof. rewrite <- !list_elem_of_In. by rewrite sort_strings_perm. Qed.

Lemma sort_values_In (arr : list jsval) (v : jsval) :
  In v (sort_values arr) <-> In v arr.
Proof.
  rewrite <- !list_elem_of_In. unfold sort_values.
  by rewrite merge_sort_Permutation.
Qed.

(** [filter] keeps an ascending array ascending. *)
Lemma filter_sorted {A} (R : relation A) (f : A -> bool) (l : list A) :
  StronglySorted R l -> StronglySorted R (List.filter f l).
Proof.
  induction 1 as [|x l Hl IH Hx]; simpl; [constructor|].
  destruct (f x); [|done]. constructor; [done|].
  rewrite List.Forall_forall in *. intros y Hy.
  apply filter_In in Hy as [Hy _]. by apply Hx.
Qed.

(** ** Identifiers *)

Lemma ids_In (graph : ObjectGraph) (id : jsval) :
  In id (ids graph) <-> In id (getAllIds graph) /\ isNaN id = false.
Proof.
  unfold ids. rewrite sort_values_In, filter_In.
  by rewrite negb_true_iff.
Qed.

(** C7: the identifiers used for classification are the result graph's
    identifiers that pass the [isNaN] check, arranged in the ascending
    order of the default sort; identifiers failing the check take no part
    in any of the three classifications, and the run completes whatever
    identifiers the graph reports. *)
Theorem ids_well_formed_sorted (graph : ObjectGraph) :
  ids graph ≡ₚ List.filter (fun id => negb (isNaN id)) (getAllIds graph)
  /\ StronglySorted sort_le (ids graph)
  /\ (forall id, In id (ids graph) <-> In id (getAllIds graph) /\ isNaN id = false)
  /\ (forall s, In s (apis graph) ->
        exists id, In id (getAllIds graph) /\ isNaN id = false
                   /\ s = getShortestKey graph id)
  /\ (forall s, In s (structs graph) ->
        exists id, In id (getAllIds graph) /\ isNaN id = false
                   /\ s = getShortestKey graph id)
  /\ (forall s, In s (primitives graph) ->
        exists id key, In id (getAllIds graph) /\ isNaN id = false
                   /\ s = getShortestKey graph id +:+ "." +:+ key)
  /\ (forall intersectDifference inGraphs exGraphs pg,
        intersectDifference inGraphs exGraphs = Some graph ->
        snd (doAnalyses intersectDifference inGraphs exGraphs pg)
        = Completed (apis graph) (structs graph) (primitives graph)).
Proof.
  split; [apply merge_sort_Permutation|].
  split; [apply StronglySorted_merge_sort; apply _|].
  split; [apply ids_In|].
  split; [|split; [|split]].
  - intros s Hs. unfold apis in Hs.
    apply sort_strings_In, in_map_iff in Hs as (id & <- & Hid).
    apply filter_In in Hid as [Hid _]. apply ids_In in Hid as [? ?]. eauto.
  - intros s Hs. unfold structs, leaf_structs in Hs.
    apply filter_In in Hs as [Hs _]. unfold allStructs in Hs.
    apply sort_strings_In, in_map_iff in Hs as (id & <- & Hid).
    apply filter_In in Hid as [Hid _]. apply ids_In in Hid as [? ?]. eauto.
  - intros s Hs. unfold primitives in Hs.
    apply sort_strings_In, filter_In in Hs as [Hs _].
    unfold primitive_entries, JS.reduce_concat in Hs.
    assert (forall (ls : list (list string)) acc,
               In s (fold_left (fun acc arr => acc ++ arr) ls acc) ->
               In s acc \/ exists l, In l ls /\ In s l) as Hfold.
    { induction ls as [|l ls IH]; intros acc Hin; simpl in Hin; [by left|].
      apply IH in Hin as [Hin|(l' & ? & ?)].
      - apply in_app_or in Hin as [?|?]; [by left|right; exists l; simpl; auto].
      - right. exists l'. simpl. auto. }
    apply Hfold in Hs as [[]|(l & Hl & Hs)].
    apply in_map_iff in Hl as (id & <- & Hid).
    unfold primitives_of in Hs. apply in_map_iff in Hs as (key & <- & _).
    apply ids_In in Hid as [? ?]. eauto.
  - intros idf inG exG pg Hg. unfold doAnalyses. by rewrite Hg.
Qed.

(** ** Leaf structs *)

Lemma leaf_structs_In (allStructs : list string) (s : string) :
  In s (leaf_structs allStructs)
  <-> In s allStructs
      /\ ~ exists other, In other allStructs
                         /\ (String.length s < String.length other)%nat
                         /\ is_prefix s other.
Proof.
  unfold leaf_structs. rewrite filter_In, negb_true_iff.
  rewrite <- not_true_iff_false, existsb_exists.
  split; intros [Hin Hno]; (split; [done|]); intros (other & Hother & H); apply Hno;
    exists other; (split; [done|]).
  - destruct H as [Hlen Hpre].
    apply andb_true_iff. split.
    + apply Z.ltb_lt. unfold JS.length. lia.
    + apply Z.eqb_eq, indexOf_zero. by apply starts_with_is_prefix.
  - apply andb_true_iff in H as [Hlen Hidx].
    apply Z.ltb_lt in Hlen. apply Z.eqb_eq, indexOf_zero in Hidx.
    unfold JS.length in Hlen. split; [lia|]. by apply starts_with_is_prefix.
Qed.

(** C2: a struct path is dropped from the list exactly when another path
    of the list is strictly longer and has it as a literal prefix (a raw
    string match from index 0, blind to path segments); from
    ["a"; "a.b"; "a.b.c"; "x"] exactly ["a.b.c"; "x"] remain, and "ab"
    counts as a prefix of "abc". *)
Theorem leaf_structs_spec :
  (forall graph s,
      In s (structs graph)
      <-> In s (allStructs graph)
          /\ ~ exists other, In other (allStructs graph)
                             /\ (String.length s < String.length other)%nat
                             /\ is_prefix s other)
  /\ (forall allStructs s,
        In s allStructs ->
        (~ In s (leaf_structs allStructs)
         <-> exists other, In other allStructs
                           /\ (String.length s < String.length other)%nat
                           /\ JS.indexOf other s = 0))
  /\ leaf_structs ["a"; "a.b"; "a.b.c"; "x"] = ["a.b.c"; "x"]
  /\ leaf_structs ["ab"; "abc"] = ["abc"]
  /\ is_prefix "ab" "abc".
Proof.
  split; [intros graph s; apply leaf_structs_In|].
  split; [|split; [done|split; [done|by exists "c"]]].
  intros all s Hin. rewrite leaf_structs_In. split.
  - intros Hno.
    destruct (existsb (fun other => (JS.length s <? JS.length other)
                                    && (JS.indexOf other s =? 0)) all) eqn:He.
    + apply existsb_exists in He as (other & Hother & H).
      apply andb_true_iff in H as [Hlen Hidx].
      apply Z.ltb_lt in Hlen. apply Z.eqb_eq in Hidx. unfold JS.length in Hlen.
      exists other. split; [done|]. split; [lia|done].
    + exfalso. apply Hno. split; [done|].
      intros (other & Hother & Hlen & Hpre).
      apply not_true_iff_false in He. apply He, existsb_exists.
      exists other. split; [done|]. apply andb_true_iff. split.
      * apply Z.ltb_lt. unfold JS.length. lia.
      * apply Z.eqb_eq, indexOf_zero. by apply starts_with_is_prefix.
  - intros (other & Hother & Hlen & Hidx) [_ Hno]. apply Hno.
    exists other. split; [done|]. split; [done|].
    by apply starts_with_is_prefix, indexOf_zero.
Qed.

Lemma leaf_structs_spec_witness :
  ~ In "a.b" (leaf_structs ["a"; "a.b"; "a.b.c"; "x"])
  <-> exists other, In other ["a"; "a.b"; "a.b.c"; "x"]
                    /\ (String.length "a.b" < String.length other)%nat
                    /\ JS.indexOf other "a.b" = 0.
Proof.
  destruct leaf_structs_spec as (_ & H & _).
  apply H. simpl. auto.
Defined.

(** ** The reserved-key filter of the primitive list *)

Lemma rev_app_app (s t k : string) :
  String.rev_app s t +:+ k = String.rev_app s (t +:+ k).
Proof. revert t. induction s as [|c s IH]; intros t; simpl; [done|]. by rewrite IH. Qed.

Lemma rev_cons_app (c : ascii) (cur k : string) :
  String.rev (String c cur) +:+ k = String.rev cur +:+ String c k.
Proof. unfold String.rev. simpl. by rewrite !rev_app_app. Qed.

Lemma split_dot_go_nonempty (cur s : string) : JS.split_dot_go cur s <> [].
Proof.
  revert cur. induction s as [|c s IH]; intros cur; simpl; [done|].
  destruct (Ascii.eqb c "."); [done | apply IH].
Qed.

(** A segment without dots is not split. *)
Lemma split_dot_go_dot_free (key : string) :
  forall cur, dot_free key = true ->
    JS.split_dot_go cur key = [String.rev cur +:+ key].
Proof.
  induction key as [|c key IH]; intros cur Hfree; simpl.
  - by rewrite string_app_empty_r.
  - simpl in Hfree. apply andb_true_iff in Hfree as [Hc Hfree].
    apply negb_true_iff in Hc. rewrite Hc, IH by done.
    by rewrite rev_cons_app.
Qed.

(** Splitting at a dot splits the two sides separately. *)
Lemma split_dot_go_app (p k : string) :
  forall cur,
    JS.split_dot_go cur (p +:+ "." +:+ k)
    = JS.split_dot_go cur p ++ JS.split_dot_go "" k.
Proof.
  induction p as [|c p IH]; intros cur.
  - done.
  - rewrite string_app_cons. simpl.
    destruct (Ascii.eqb c "."); [|apply IH].
    simpl. f_equal. apply IH.
Qed.

(** [split('.')] followed by [join('.')] gives the string back. *)
Lemma join_split_dot_go (s : string) :
  forall cur, JS.join "." (JS.split_dot_go cur s) = String.rev cur +:+ s.
Proof.
  induction s as [|c s IH]; intros cur; simpl.
  - by rewrite string_app_empty_r.
  - destruct (Ascii.eqb_spec c ".") as [->|Hc].
    + specialize (IH ""). pose proof (split_dot_go_nonempty "" s) as Hne.
      destruct (JS.split_dot_go "" s) as [|x rest]; [done|].
      change (JS.join "." (String.rev cur :: x :: rest))
        with (String.rev cur +:+ "." +:+ JS.join "." (x :: rest)).
      by rewrite IH.
    + by rewrite IH, rev_cons_app.
Qed.

Lemma primitive_split (prefix key : string) :
  dot_free key = true ->
  JS.split_dot (prefix +:+ "." +:+ key) = JS.split_dot prefix ++ [key].
Proof.
  intros Hfree. unfold JS.split_dot.
  by rewrite split_dot_go_app, (split_dot_go_dot_free key "" Hfree).
Qed.

Lemma primitive_prefix_postfix (prefix key : string) :
  dot_free key = true ->
  primitive_prefix (prefix +:+ "." +:+ key) = prefix
  /\ primitive_postfix (prefix +:+ "." +:+ key) = key.
Proof.
  intros Hfree. unfold primitive_prefix, primitive_postfix.
  rewrite (primitive_split _ _ Hfree).
  unfold JS.slice_init, JS.last_elem.
  rewrite removelast_last, last_last. split; [|done].
  unfold JS.split_dot. by rewrite join_split_dot_go.
Qed.

Lemma reserved_In (postfix : string) :
  existsb (fun name => String.eqb name postfix) reserved = true
  <-> In postfix reserved.
Proof.
  rewrite existsb_exists. split.
  - intros (name & Hin & Heq). apply String.eqb_eq in Heq. by subst.
  - intros Hin. exists postfix. split; [done|]. apply String.eqb_refl.
Qed.

Lemma reduce_concat_concat {A} (arrs : list (list A)) :
  JS.reduce_concat arrs = concat arrs.
Proof.
  unfold JS.reduce_concat.
  assert (forall acc, fold_left (fun acc arr => acc ++ arr) arrs acc
                      = acc ++ concat arrs) as H; [|apply H].
  induction arrs as [|arr arrs IH]; intros acc; simpl.
  - by rewrite app_nil_r.
  - by rewrite IH, app_assoc.
Qed.

Lemma keep_primitive_false (graph : ObjectGraph) (prefix key : string) :
  dot_free key = true ->
  keep_primitive graph (prefix +:+ "." +:+ key) = false
  <-> isFunction graph (lookup graph prefix None) = true /\ In key reserved.
Proof.
  intros Hfree. unfold keep_primitive.
  destruct (primitive_prefix_postfix prefix key Hfree) as [-> ->].
  rewrite orb_false_iff, !negb_false_iff. by rewrite reserved_In.
Qed.

(** The filter on an entry [prefix.key] whose [key] has no dot. *)
Lemma reserved_key_dot_free (graph : ObjectGraph) (prefix key : string) :
  dot_free key = true ->
  (keep_primitive graph (prefix +:+ "." +:+ key) = false
   <-> isFunction graph (lookup graph prefix None) = true
       /\ In key ["arguments"; "caller"; "length"; "name"])
  /\ (In (prefix +:+ "." +:+ key) (primitives graph)
      <-> In (prefix +:+ "." +:+ key) (primitive_entries graph)
          /\ ~ (isFunction graph (lookup graph prefix None) = true
                /\ In key ["arguments"; "caller"; "length"; "name"]))
  /\ (isFunction graph (lookup graph prefix None) = false ->
      In (prefix +:+ "." +:+ key) (primitive_entries graph) ->
      In (prefix +:+ "." +:+ key) (primitives graph)).
Proof.
  intros Hfree.
  pose proof (keep_primitive_false graph prefix key Hfree) as Hdrop.
  fold reserved. split; [exact Hdrop|].
  assert (In (prefix +:+ "." +:+ key) (primitives graph)
          <-> In (prefix +:+ "." +:+ key) (primitive_entries graph)
              /\ ~ (isFunction graph (lookup graph prefix None) = true
                    /\ In key reserved)) as Hiff.
  { unfold primitives. rewrite sort_strings_In, filter_In, <- Hdrop.
    by rewrite not_false_iff_true. }
  split; [exact Hiff|].
  intros Hnot Hin. apply Hiff. split; [done|]. intros [Hf _]. congruence.
Qed.

Example demo_ids : ids demo_graph = [VNum 1; VNum 10; VNum 2; VNum 3; VNum 4; VNum 5].
Proof. vm_compute. reflexivity. Qed.

Example demo_lists :
  apis demo_graph = ["f"]
  /\ structs demo_graph = ["a.b.c"; "x"]
  /\ primitive_entries demo_graph
     = ["f.length"; "f.name"; "f.own"; "a.b.c.length"; "a.b.c.n"]
  /\ primitives demo_graph = ["a.b.c.length"; "a.b.c.n"; "f.own"].
Proof. vm_compute. repeat split. Qed.

Lemma ids_well_formed_sorted_witness :
  ~ In VNaN (ids demo_graph)
  /\ snd (doAnalyses (fun _ _ => Some demo_graph) [] [] ∅)
     = Completed ["f"] ["a.b.c"; "x"] ["a.b.c.length"; "a.b.c.n"; "f.own"].
Proof.
  destruct (ids_well_formed_sorted demo_graph) as (_ & _ & Hin & _ & _ & _ & Hrun).
  split.
  - intros H. apply Hin in H as [_ H]. discriminate H.
  - rewrite (Hrun (fun _ _ => Some demo_graph) [] [] ∅ eq_refl).
    vm_compute. reflexivity.
Defined.

(** ** The page *)

Lemma clear_regions_lookup (pg : gmap string string) (sel : string) :
  clear_regions pg !! sel
  = if decide (sel = "#apis" \/ sel = "#structs" \/ sel = "#primitives")
    then Some "" else pg !! sel.
Proof.
  unfold clear_regions. rewrite !lookup_insert.
  case_selectors.
Qed.

Lemma write_regions_lookup (a s p : list string) (pg : gmap string string)
    (sel : string) :
  write_regions a s p pg !! sel
  = if decide (sel = "#primitives") then Some (JS.join newline p)
    else if decide (sel = "#structs") then Some (JS.join newline s)
    else if decide (sel = "#apis") then Some (JS.join newline a)
    else pg !! sel.
Proof.
  unfold write_regions. rewrite !lookup_insert.
  case_selectors.
Qed.

Lemma structs_sorted (graph : ObjectGraph) :
  StronglySorted String.le (structs graph).
Proof. apply filter_sorted, sort_strings_sorted. Qed.

Lemma newline_app (k : string) : newline +:+ k = String "010" k.
Proof. reflexivity. Qed.

Lemma lines_go_lf_free (s : string) :
  forall cur, lf_free s = true -> lines_go cur s = [String.rev cur +:+ s].
Proof.
  induction s as [|c s IH]; intros cur Hfree; simpl.
  - by rewrite string_app_empty_r.
  - simpl in Hfree. apply andb_true_iff in Hfree as [Hc Hfree].
    apply negb_true_iff in Hc. rewrite Hc, IH by done.
    by rewrite rev_cons_app.
Qed.

Lemma lines_go_app (p k : string) :
  forall cur,
    lines_go cur (p +:+ newline +:+ k) = lines_go cur p ++ lines_go "" k.
Proof.
  induction p as [|c p IH]; intros cur.
  - by rewrite string_app_nil_l, newline_app.
  - rewrite string_app_cons. simpl.
    destruct (Ascii.eqb c "010"); [|apply IH].
    simpl. f_equal. apply IH.
Qed.

(** Entries without a line feed, joined by line feeds, are the lines of
    the text. *)
Lemma lines_join (entries : list string) :
  Forall (fun e => lf_free e = true) entries ->
  one_per_line (JS.join newline entries) entries.
Proof.
  destruct entries as [|x rest]; [done|]. simpl. revert x.
  induction rest as [|y rest IH]; intros x Hfree.
  - apply Forall_cons in Hfree as [Hx _]. unfold lines.
    by rewrite (lines_go_lf_free x "" Hx).
  - apply Forall_cons in Hfree as [Hx Hfree].
    change (JS.join newline (x :: y :: rest))
      with (x +:+ newline +:+ JS.join newline (y :: rest)).
    unfold lines. rewrite lines_go_app, (lines_go_lf_free x "" Hx).
    simpl. f_equal. by apply IH.
Qed.

Section EngineFacts.

Variable intersectDifference :
  list ObjectGraph -> list ObjectGraph -> option ObjectGraph.

(** C8 as amended: a run first sets the text of the three regions to the
    empty string, so they are cleared also when the refinement throws;
    when the run completes, each region holds its list, in ascending
    order, the entries joined by single line feeds (no text for an empty
    list): the lines of the text are the entries, one entry per line,
    whenever no entry contains a line feed; the text of no other selector
    changes. *)
Theorem doAnalyses_regions (inGraphs exGraphs : list ObjectGraph)
    (pg : gmap string string) :
  let pg' := fst (doAnalyses intersectDifference inGraphs exGraphs pg) in
  (forall sel, sel <> "#apis" -> sel <> "#structs" -> sel <> "#primitives" ->
     pg' !! sel = pg !! sel)
  /\ clear_regions pg !! "#apis" = Some ""
  /\ clear_regions pg !! "#structs" = Some ""
  /\ clear_regions pg !! "#primitives" = Some ""
  /\ match intersectDifference inGraphs exGraphs with
     | None =>
         doAnalyses intersectDifference inGraphs exGraphs pg
         = (clear_regions pg, Thrown)
     | Some graph =>
         doAnalyses intersectDifference inGraphs exGraphs pg
         = (write_regions (apis graph) (structs graph) (primitives graph)
              (clear_regions pg),
            Completed (apis graph) (structs graph) (primitives graph))
         /\ pg' !! "#apis" = Some (JS.join newline (apis graph))
         /\ pg' !! "#structs" = Some (JS.join newline (structs graph))
         /\ pg' !! "#primitives" = Some (JS.join newline (primitives graph))
         /\ StronglySorted String.le (apis graph)
         /\ StronglySorted String.le (structs graph)
         /\ StronglySorted String.le (primitives graph)
         /\ newline = String "010" ""
         /\ (forall entries x y rest,
               JS.join newline [] = ""
               /\ JS.join newline [x] = x
               /\ JS.join newline (x :: y :: rest)
                  = x +:+ String "010" (JS.join newline (y :: rest))
               /\ (Forall (fun e => lf_free e = true) entries ->
                   one_per_line (JS.join newline entries) entries))
         /\ (Forall (fun e => lf_free e = true) (apis graph) ->
             one_per_line (JS.join newline (apis graph)) (apis graph))
         /\ (Forall (fun e => lf_free e = true) (structs graph) ->
             one_per_line (JS.join newline (structs graph)) (structs graph))
         /\ (Forall (fun e => lf_free e = true) (primitives graph) ->
             one_per_line (JS.join newline (primitives graph)) (primitives graph))
     end.
Proof.
  intros pg'. subst pg'. unfold doAnalyses.
  split.
  - intros sel H1 H2 H3.
    destruct (intersectDifference inGraphs exGraphs) as [graph|]; simpl.
    + rewrite write_regions_lookup, clear_regions_lookup.
      case_selectors.
    + rewrite clear_regions_lookup. case_selectors.
  - rewrite !clear_regions_lookup. do 3 (split; [done|]).
    destruct (intersectDifference inGraphs exGraphs) as [graph|]; [|done].
    simpl. rewrite !write_regions_lookup. do 4 (split; [done|]).
    split; [apply sort_strings_sorted|].
    split; [apply structs_sorted|].
    split; [apply sort_strings_sorted|].
    split; [done|].
    split; [intros entries x y rest; repeat split; apply lines_join|].
    repeat split; apply lines_join.
Qed.

(** C9: the three lists of a run depend on the include and exclude
    sequences only, not on what the page held before; a second run on the
    page left by the first yields the same lists and the same page. *)
Theorem doAnalyses_deterministic (inGraphs exGraphs : list ObjectGraph)
    (pg1 pg2 : gmap string string) :
  snd (doAnalyses intersectDifference inGraphs exGraphs pg1)
  = snd (doAnalyses intersectDifference inGraphs exGraphs pg2)
  /\ doAnalyses intersectDifference inGraphs exGraphs
       (fst (doAnalyses intersectDifference inGraphs exGraphs pg1))
     = doAnalyses intersectDifference inGraphs exGraphs pg1.
Proof.
  unfold doAnalyses.
  destruct (intersectDifference inGraphs exGraphs) as [graph|]; simpl.
  - split; [done|]. f_equal. apply map_eq. intros sel.
    rewrite !write_regions_lookup, !clear_regions_lookup, !write_regions_lookup,
      !clear_regions_lookup.
    case_selectors.
  - split; [done|]. f_equal. apply map_eq. intros sel.
    rewrite !clear_regions_lookup. case_selectors.
Qed.

End EngineFacts.

Lemma doAnalyses_regions_witness :
  let pg' := fst (doAnalyses (fun _ _ => Some demo_graph) [] []
                    {[ "#apis" := "old"; "#title" := "t" ]}) in
  pg' !! "#title" = Some "t"
  /\ pg' !! "#apis" = Some "f"
  /\ pg' !! "#structs" = Some ("a.b.c" +:+ String "010" "x")
  /\ lines ("a.b.c" +:+ String "010" "x") = ["a.b.c"; "x"]
  /\ fst (doAnalyses (fun _ _ => None) [] [] {[ "#apis" := "old" ]}) !! "#apis"
     = Some "".
Proof.
  cbv zeta.
  destruct (doAnalyses_regions (fun _ _ => Some demo_graph) [] []
              {[ "#apis" := "old"; "#title" := "t" ]})
    as (Hframe & _ & _ & _ & _ & Hapis & Hstructs & _ & _ & _ & _ & _ & _ & _
        & Hlines & _).
  destruct (doAnalyses_regions (fun _ _ => None) [] [] {[ "#apis" := "old" ]})
    as (_ & _ & _ & _ & Hthrown).
  split; [rewrite Hframe by discriminate; reflexivity|].
  split; [exact Hapis|]. split; [exact Hstructs|].
  split.
  - apply Hlines. repeat constructor.
  - simpl in Hthrown. rewrite Hthrown. reflexivity.
Defined.

(** C8 as stated fails on a graph with a line feed in a shortest key: the
    APIs list has one entry, and the text written to the region has two
    lines. *)
Lemma doAnalyses_regions_counterexample :
  snd (doAnalyses (fun _ _ => Some multiline_graph) [] [] ∅)
  = Completed ["a" +:+ String "010" "b"] [] []
  /\ fst (doAnalyses (fun _ _ => Some multiline_graph) [] [] ∅) !! "#apis"
     = Some ("a" +:+ String "010" "b")
  /\ lines ("a" +:+ String "010" "b") = ["a"; "b"]
  /\ List.length (lines ("a" +:+ String "010" "b"))
     <> List.length ["a" +:+ String "010" "b"].
Proof. repeat split; discriminate. Qed.

(** ** The readiness gate *)

Section GateFacts.

Variable fromJSON : json -> ObjectGraph.
Variable intersectDifference :
  list ObjectGraph -> list ObjectGraph -> option ObjectGraph.

#[local] Abbreviation graphs := (getObjectGraphs fromJSON).
#[local] Abbreviation calls inc exc pg cs :=
  (invocations (analyze_then fromJSON intersectDifference inc exc pg cs)).

(** The gate right after the synchronous part of [analyze()]. *)
Lemma analyze_initial (inc exc : list input) (pg : gmap string string) :
  fst (analyze inc exc pg)
  = {| inGraphs := None;
       exGraphs := match exc with [] => Some [] | _ :: _ => None end;
       page := pg;
       invocations := [] |}.
Proof.
  unfold analyze. simpl. rewrite (inputPaths_map exc), List.length_map.
  by destruct exc.
Qed.

Lemma analyze_requests (inc exc : list input) (pg : gmap string string) :
  snd (analyze inc exc pg) = [inputPaths inc; inputPaths exc].
Proof. done. Qed.

(** C1 as amended: the engine is not invoked before the include batch has
    completed.  With a non-empty exclude-path list it is invoked exactly
    once, when the second of the two batches completes, whichever comes
    first, and not at all while only one has completed.  With an empty
    exclude-path list the exclude side counts as complete from the start,
    and the engine is invoked when the include batch completes. *)
Theorem readiness_gate (inc exc : list input) (pg : gmap string string)
    (a b : list json) :
  calls inc exc pg [] = []
  /\ calls inc exc pg [ExLoaded b] = []
  /\ calls inc exc pg [ExLoaded b; InLoaded a] = [(graphs a, graphs b)]
  /\ (exc <> [] ->
      calls inc exc pg [InLoaded a] = []
      /\ calls inc exc pg [InLoaded a; ExLoaded b] = [(graphs a, graphs b)])
  /\ (exc = [] -> calls inc exc pg [InLoaded a] = [(graphs a, [])]).
Proof.
  unfold analyze_then. rewrite analyze_initial.
  destruct exc as [|row rows]; simpl; repeat split; done.
Qed.

(** C5: with an empty exclude-path list the gate starts with the exclude
    side complete and holding no snapshot, the exclude request names no
    path to retrieve, and the engine, invoked when the include batch
    completes, receives the empty exclude sequence. *)
Theorem empty_exclude_short_circuit (inc exc : list input)
    (pg : gmap string string) (a : list json) :
  List.length (inputPaths exc) = 0%nat ->
  exGraphs (fst (analyze inc exc pg)) = Some []
  /\ snd (analyze inc exc pg) = [inputPaths inc; []]
  /\ calls inc exc pg [InLoaded a] = [(graphs a, [])]
  /\ forall cs pair,
       In pair (calls inc exc pg cs) ->
       (forall jsons, In (ExLoaded jsons) cs -> jsons = []) ->
       snd pair = [].
Proof.
  intros Hlen. rewrite inputPaths_map, List.length_map in Hlen.
  destruct exc; [|done]. clear Hlen.
  unfold analyze_then. rewrite analyze_initial.
  split; [done|]. split; [done|]. split; [done|].
  intros cs pair Hin Hcs.
  set (g0 := {| inGraphs := None; exGraphs := Some []; page := pg;
                invocations := [] |}) in Hin.
  assert (exGraphs g0 = Some [] /\ forall p, In p (invocations g0) -> snd p = [])
    as Hinv by (split; [done | intros p []]).
  clearbody g0. revert g0 Hinv Hin.
  induction cs as [|c cs IH]; intros g0 [Hex Hlog] Hin; [by apply Hlog|].
  apply (IH (fun jsons H => Hcs jsons (or_intror H))) in Hin; [done|].
  destruct c as [jsons|jsons]; unfold on_completion, next; simpl.
  - rewrite Hex. simpl. split; [done|].
    intros p Hp. apply in_app_or in Hp as [Hp|[<-|[]]]; [by apply Hlog|done].
  - rewrite (Hcs jsons (or_introl eq_refl)). simpl.
    destruct (inGraphs g0); simpl; (split; [done|]); [|done].
    intros p Hp. apply in_app_or in Hp as [Hp|[<-|[]]]; [by apply Hlog|done].
Qed.

End GateFacts.

Lemma readiness_gate_witness :
  invocations
    (analyze_then (fun _ => demo_graph) (fun _ _ => Some demo_graph)
       [ {| value := "chrome 56" |} ] [ {| value := "firefox 50" |} ] ∅
       [InLoaded [JNull]; ExLoaded [JNull]])
  = [([demo_graph], [demo_graph])]
  /\ invocations
       (analyze_then (fun _ => demo_graph) (fun _ _ => Some demo_graph)
          [ {| value := "chrome 56" |} ] [] ∅ [InLoaded [JNull]])
     = [([demo_graph], [])].
Proof.
  split.
  - destruct (readiness_gate (fun _ => demo_graph) (fun _ _ => Some demo_graph)
                [ {| value := "chrome 56" |} ] [ {| value := "firefox 50" |} ] ∅
                [JNull] [JNull]) as (_ & _ & _ & H & _).
    destruct H as [_ H]; [discriminate | exact H].
  - destruct (readiness_gate (fun _ => demo_graph) (fun _ _ => Some demo_graph)
                [ {| value := "chrome 56" |} ] [] ∅ [JNull] [])
      as (_ & _ & _ & _ & H).
    exact (H eq_refl).
Defined.

(** C1 as stated fails when there is no exclude row: the engine is invoked
    at the completion of the include batch although the exclude batch has
    not completed, and a completion of the exclude batch after that
    invokes it a second time. *)
Lemma readiness_gate_counterexample :
  let calls := fun cs =>
    invocations
      (analyze_then (fun _ => demo_graph) (fun _ _ => Some demo_graph)
         [ {| value := "chrome 56" |} ] [] ∅ cs) in
  List.length (calls [InLoaded [JNull]]) = 1%nat
  /\ List.length (calls [InLoaded [JNull]]) <> 0%nat
  /\ List.length (calls [InLoaded [JNull]; ExLoaded []]) = 2%nat
  /\ List.length (calls [InLoaded [JNull]; ExLoaded []]) <> 1%nat.
Proof. cbv zeta. unfold analyze_then, run. simpl. repeat split; discriminate. Qed.

Lemma empty_exclude_short_circuit_witness :
  exGraphs (fst (analyze [ {| value := "chrome 56" |} ] [] ∅)) = Some []
  /\ snd (analyze [ {| value := "chrome 56" |} ] [] ∅)
     = [[Some "/data/chrome/56"]; []].
Proof.
  destruct (empty_exclude_short_circuit (fun _ => demo_graph)
              (fun _ _ => Some demo_graph)
              [ {| value := "chrome 56" |} ] [] ∅ [JNull] eq_refl)
    as (H1 & H2 & _).
  split; [exact H1 | exact H2].
Defined.

(** * Further properties of the script *)

(** ** Flattening under a prefix, and the suggestion list *)

(** Under a non-empty prefix every option is the prefix and the segments
    of one leaf path, joined by single spaces: empty property names are
    kept there, and the number of options does not depend on the prefix. *)
Theorem getKeys_prefixed (o : json) (s : string) :
  s <> "" ->
  getKeys o s = List.map (fun path => JS.join " " (s :: path)) (leaf_paths o)
  /\ List.length (getKeys o s) = List.length (getKeys o "").
Proof.
  intros Hs. rewrite !getKeys_leaf_paths. split.
  - apply List.map_ext. intros path. by apply foldl_extend_path_join.
  - by rewrite !List.length_map.
Qed.

Lemma getKeys_prefixed_witness :
  getKeys (JObj [("", JObj [("a", JNull)]); ("b", JNull)]) "x" = ["x  a"; "x b"].
Proof.
  destruct (getKeys_prefixed (JObj [("", JObj [("a", JNull)]); ("b", JNull)]) "x")
    as [H _]; [discriminate | exact H].
Defined.

(** The options of an object are those of its properties, one property
    after the other: listing more properties appends their options. *)
Theorem getKeys_props_app (ps qs : list (string * json)) (s : string) :
  getKeys (JObj (ps ++ qs)) s = getKeys (JObj ps) s ++ getKeys (JObj qs) s
  /\ forall key v, getKeys (JObj ((key, v) :: qs)) s
                   = getKeys v (extend_path s key) ++ getKeys (JObj qs) s.
Proof.
  split.
  - simpl. rewrite !getKeys_loop_acc. simpl. apply flat_map_app.
  - intros key v. simpl. by rewrite !getKeys_loop_acc.
Qed.

Lemma addOpts_loop_invariant (opts datalist : list string) (k : nat) :
  (k <= List.length opts)%nat ->
  foldl (addOpts_body opts) datalist (seq 0 k) = datalist ++ take k opts.
Proof.
  induction k as [|k IH]; intros Hk.
  - simpl. by rewrite app_nil_r.
  - rewrite seq_S, foldl_app, IH by lia. simpl.
    destruct (lookup_lt_is_Some_2 opts k) as [v Hv]; [lia|].
    unfold addOpts_body. rewrite Hv, (take_S_r _ _ _ Hv).
    by rewrite app_assoc.
Qed.

(** [addOpts] appends one [<option>] per entry of the option list, in
    order, after the children the datalist already has: nothing is
    cleared and nothing is merged, so a second call lists every option
    twice. *)
Theorem addOpts_appends (opts datalist : list string) :
  addOpts opts datalist = datalist ++ opts
  /\ addOpts opts (addOpts opts datalist) = datalist ++ opts ++ opts
  /\ List.length (addOpts opts datalist)
     = (List.length datalist + List.length opts)%nat.
Proof.
  assert (forall d, addOpts opts d = d ++ opts) as H.
  { intros d. unfold addOpts. rewrite addOpts_loop_invariant by lia.
    by rewrite take_ge by lia. }
  split; [apply H|]. split.
  - by rewrite !H, <- app_assoc.
  - by rewrite H, List.length_app.
Qed.

(** ** Retrieval paths *)

Lemma replace_spaces_app (a b : string) :
  JS.replace_spaces (a +:+ b) = JS.replace_spaces a +:+ JS.replace_spaces b.
Proof.
  induction a as [|c a IH]; [done|].
  rewrite string_app_cons. simpl. by rewrite IH.
Qed.

Lemma replace_spaces_space_free (s : string) :
  space_free (JS.replace_spaces s) = true.
Proof.
  induction s as [|c s IH]; [done|]. simpl. rewrite IH.
  destruct (Ascii.eqb_spec c " ") as [->|Hc]; [done|].
  by apply Ascii.eqb_neq in Hc as ->.
Qed.

Lemma replace_spaces_id (s : string) :
  space_free s = true -> JS.replace_spaces s = s.
Proof.
  induction s as [|c s IH]; [done|]. simpl.
  intros [Hc Hs]%andb_true_iff. apply negb_true_iff in Hc.
  by rewrite Hc, IH.
Qed.

Lemma space_free_app (a b : string) :
  space_free (a +:+ b) = space_free a && space_free b.
Proof.
  induction a as [|c a IH]; [done|].
  rewrite string_app_cons. simpl. by rewrite IH, andb_assoc.
Qed.

(** A retrieval path is the routing prefix followed by as many code units
    as the label has, and it never contains a space. *)
Theorem optValueToURL_shape (label : string) :
  JS.starts_with "/data/" (optValueToURL label) = true
  /\ String.length (optValueToURL label) = (6 + String.length label)%nat
  /\ space_free (optValueToURL label) = true.
Proof.
  unfold optValueToURL. split; [|split].
  - apply starts_with_is_prefix. by eexists.
  - by rewrite string_app_length, replace_spaces_length.
  - by rewrite space_free_app, replace_spaces_space_free.
Qed.

Lemma replace_spaces_inj (l1 : string) :
  forall l2, slash_free l1 = true -> slash_free l2 = true ->
    JS.replace_spaces l1 = JS.replace_spaces l2 -> l1 = l2.
Proof.
  induction l1 as [|c1 l1 IH]; intros [|c2 l2]; simpl; try done.
  intros [Hc1 H1]%andb_true_iff [Hc2 H2]%andb_true_iff [= Hc Hl].
  apply negb_true_iff, Ascii.eqb_neq in Hc1, Hc2.
  f_equal; [|by apply IH].
  destruct (Ascii.eqb_spec c1 " "), (Ascii.eqb_spec c2 " "); congruence.
Qed.

(** Labels without a slash are told apart by their retrieval paths. *)
Theorem optValueToURL_inj (l1 l2 : string) :
  slash_free l1 = true -> slash_free l2 = true ->
  optValueToURL l1 = optValueToURL l2 -> l1 = l2.
Proof.
  intros H1 H2 Heq. unfold optValueToURL in Heq.
  apply (inj (String.app "/data/")) in Heq. by apply replace_spaces_inj.
Qed.

Lemma optValueToURL_inj_witness :
  slash_free "chrome 56" = true
  /\ optValueToURL "chrome 56" = "/data/chrome/56"
  /\ "chrome 56" = "chrome 56".
Proof.
  split; [reflexivity|]. split; [reflexivity|].
  apply optValueToURL_inj; reflexivity.
Defined.

(** A slash in a label is not told apart from a space. *)
Example optValueToURL_slash : optValueToURL "a b" = optValueToURL "a/b".
Proof. reflexivity. Qed.

Lemma replace_spaces_join (path : list string) :
  JS.replace_spaces (JS.join " " path)
  = JS.join "/" (List.map JS.replace_spaces path).
Proof.
  induction path as [|x path IH]; [done|].
  destruct path as [|y path]; [done|].
  change (JS.join " " (x :: y :: path))
    with (x +:+ " " +:+ JS.join " " (y :: path)).
  rewrite !replace_spaces_app, IH. done.
Qed.

(** The coupling of the option values with the routing scheme: the option
    of a leaf path is sent to the routing prefix followed by the segments
    joined by slashes, provided no segment contains a space and the path
    does not start with an empty name. *)
Theorem option_retrieval_path (map : json) (i : nat) (path : list string) :
  leaf_paths map !! i = Some path ->
  head path <> Some "" ->
  Forall (fun seg => space_free seg = true) path ->
  (optValueToURL <$> includeExcludeOpts map) !! i
  = Some ("/data/" +:+ JS.join "/" path).
Proof.
  intros Hi Hhd Hfree. unfold includeExcludeOpts.
  rewrite getKeys_leaf_paths.
  change (List.map ?f ?l) with (f <$> l).
  rewrite !list_lookup_fmap, Hi. simpl. f_equal.
  rewrite foldl_extend_path_root, drop_leading_empty_id by done.
  unfold optValueToURL. f_equal. rewrite replace_spaces_join. f_equal.
  clear Hi Hhd. induction Hfree as [|seg rest Hseg _ IH]; [done|].
  simpl. by rewrite replace_spaces_id, IH.
Qed.

Lemma option_retrieval_path_witness :
  (optValueToURL <$> includeExcludeOpts
     (JObj [("chrome", JObj [("56", JObj [("linux", JNull)])])])) !! 0%nat
  = Some "/data/chrome/56/linux".
Proof.
  apply (option_retrieval_path _ 0%nat ["chrome"; "56"; "linux"]);
    [reflexivity | discriminate | repeat constructor].
Defined.

(** Every slot of the array built by [inputPaths] is filled, and the
    paths of a longer row list extend those of a shorter one. *)
Theorem inputPaths_filled (inputs more : list input) :
  Forall (fun slot => is_Some slot) (inputPaths inputs)
  /\ inputPaths (inputs ++ more) = inputPaths inputs ++ inputPaths more.
Proof.
  rewrite !inputPaths_map. split.
  - apply Forall_forall. intros slot Hin.
    apply list_elem_of_In, in_map_iff in Hin as (inp & <- & _). by eexists.
  - apply List.map_app.
Qed.

(** ** The three classifications *)

(** The APIs are exactly the shortest keys of the well-formed function
    identifiers, the struct candidates exactly those of the well-formed
    identifiers that are neither the root nor a function; both lists are
    ascending. *)
Theorem apis_allStructs_exact (graph : ObjectGraph) (s : string) :
  (In s (apis graph)
   <-> exists id, In id (getAllIds graph) /\ isNaN id = false
                  /\ isFunction graph id = true
                  /\ s = getShortestKey graph id)
  /\ (In s (allStructs graph)
      <-> exists id, In id (getAllIds graph) /\ isNaN id = false
                     /\ strict_eq id (root graph) = false
                     /\ isFunction graph id = false
                     /\ s = getShortestKey graph id)
  /\ StronglySorted String.le (apis graph)
  /\ StronglySorted String.le (allStructs graph).
Proof.
  split; [|split; [|split; apply sort_strings_sorted]].
  - unfold apis. rewrite sort_strings_In, in_map_iff. split.
    + intros (id & <- & Hid). apply filter_In in Hid as [Hid Hf].
      apply ids_In in Hid as [? ?]. eauto 6.
    + intros (id & Hid & Hn & Hf & ->). exists id. split; [done|].
      apply filter_In. split; [by apply ids_In | done].
  - unfold allStructs. rewrite sort_strings_In, in_map_iff. split.
    + intros (id & <- & Hid). apply filter_In in Hid as [Hid Hf].
      apply ids_In in Hid as [? ?].
      apply andb_true_iff in Hf as [Hr Hf]. apply negb_true_iff in Hr, Hf.
      eauto 8.
    + intros (id & Hid & Hn & Hr & Hf & ->). exists id. split; [done|].
      apply filter_In. split; [by apply ids_In|]. by rewrite Hr, Hf.
Qed.

Lemma filter_length_disjoint {A} (f g : A -> bool) (l : list A) :
  (forall x, f x && g x = false) ->
  (List.length (List.filter f l) + List.length (List.filter g l)
   <= List.length l)%nat.
Proof.
  intros Hfg. induction l as [|x l IH]; simpl; [done|].
  specialize (Hfg x). destruct (f x), (g x); simpl in *; try done; lia.
Qed.

Lemma sort_strings_length (arr : list string) :
  List.length (JS.sort_strings arr) = List.length arr.
Proof. apply Permutation_length, sort_strings_perm. Qed.

(** No identifier is listed twice over: the APIs and the struct
    candidates together are at most as many as the identifiers, and the
    leaf structs at most as many as the candidates. *)
Theorem classification_counts (graph : ObjectGraph) :
  (List.length (apis graph) + List.length (allStructs graph)
   <= List.length (ids graph))%nat
  /\ (List.length (ids graph) <= List.length (getAllIds graph))%nat
  /\ (List.length (structs graph) <= List.length (allStructs graph))%nat.
Proof.
  split; [|split].
  - unfold apis, allStructs.
    rewrite !sort_strings_length, !List.length_map.
    apply filter_length_disjoint. intros id.
    destruct (isFunction graph id); [simpl; apply andb_false_r | done].
  - unfold ids, sort_values.
    rewrite (Permutation_length (merge_sort_Permutation _ _)).
    apply List.filter_length_le.
  - apply List.filter_length_le.
Qed.

Lemma is_prefix_trans (a b c : string) :
  is_prefix a b -> is_prefix b c -> is_prefix a c.
Proof.
  intros [t ->] [u ->]. exists (t +:+ u). apply string_app_assoc.
Qed.

(** Is [s] dropped by the leaf filter over [all]? *)
Lemma leaf_structs_dropped (all : list string) (s : string) :
  In s all ->
  In s (leaf_structs all)
  \/ exists other, In other all
                   /\ (String.length s < String.length other)%nat
                   /\ is_prefix s other.
Proof.
  intros Hin.
  destruct (existsb (fun other => (JS.length s <? JS.length other)
                                  && (JS.indexOf other s =? 0)) all) eqn:He.
  - right. apply existsb_exists in He as (other & Hother & H).
    apply andb_true_iff in H as [Hlen Hidx].
    apply Z.ltb_lt in Hlen. apply Z.eqb_eq, indexOf_zero in Hidx.
    unfold JS.length in Hlen. exists other. split; [done|]. split; [lia|].
    by apply starts_with_is_prefix.
  - left. unfold leaf_structs. apply filter_In. split; [done|]. by rewrite He.
Qed.

(** The leaf structs cover the candidates: every candidate path is a
    literal prefix of a reported leaf struct (possibly itself), and no
    reported leaf struct is a strictly shorter prefix of another one. *)
Theorem leaf_structs_cover (all : list string) :
  (forall s, In s all ->
     exists leaf, In leaf (leaf_structs all) /\ is_prefix s leaf)
  /\ (forall s leaf, In s (leaf_structs all) -> In leaf (leaf_structs all) ->
        (String.length s < String.length leaf)%nat -> ~ is_prefix s leaf)
  /\ (leaf_structs all = [] <-> all = []).
Proof.
  assert (forall n s, In s all ->
            (list_max (List.map String.length all) - String.length s <= n)%nat ->
            exists leaf, In leaf (leaf_structs all) /\ is_prefix s leaf) as Hcover.
  { induction n as [|n IH]; intros s Hin Hn;
      (destruct (leaf_structs_dropped all s Hin)
        as [Hleaf|(other & Hother & Hlen & Hpre)];
       [exists s; split; [done | exists ""; by rewrite string_app_empty_r]|]);
      assert (String.length other <= list_max (List.map String.length all))%nat
        as Hmax
        by (pose proof (proj1 (list_max_le (List.map String.length all) _)
                          (Nat.le_refl _)) as Hall;
            rewrite List.Forall_forall in Hall; apply Hall, in_map, Hother).
    - lia.
    - destruct (IH other Hother) as (leaf & Hleaf & Hpre'); [lia|].
      exists leaf. split; [done|]. by apply (is_prefix_trans _ other). }
  split; [|split].
  - intros s Hin. by apply (Hcover _ s Hin (Nat.le_refl _)).
  - intros s leaf Hs Hleaf Hlen Hpre.
    apply leaf_structs_In in Hs as [_ Hno]. apply Hno.
    exists leaf. apply leaf_structs_In in Hleaf as [Hleaf _]. done.
  - split.
    + intros Hnil. destruct all as [|s all]; [done|].
      destruct (Hcover _ s (or_introl eq_refl) (Nat.le_refl _)) as (leaf & Hleaf & _).
      rewrite Hnil in Hleaf. destruct Hleaf.
    + by intros ->.
Qed.

Lemma leaf_structs_cover_witness :
  exists leaf, In leaf (leaf_structs ["a"; "a.b"; "a.b.c"; "x"])
               /\ is_prefix "a" leaf.
Proof.
  destruct (leaf_structs_cover ["a"; "a.b"; "a.b.c"; "x"]) as (H & _).
  apply H. simpl. auto.
Defined.

Lemma filter_all {A} (f : A -> bool) (l : list A) :
  (forall x, In x l -> f x = true) -> List.filter f l = l.
Proof.
  induction l as [|x l IH]; intros H; simpl; [done|].
  rewrite (H x (or_introl eq_refl)). f_equal. apply IH. intros y Hy.
  apply H. by right.
Qed.

(** Filtering the leaf structs once more drops nothing. *)
Theorem leaf_structs_idempotent (all : list string) :
  leaf_structs (leaf_structs all) = leaf_structs all.
Proof.
  unfold leaf_structs at 1. apply filter_all. intros s Hs.
  apply negb_true_iff, not_true_iff_false. intros He.
  apply existsb_exists in He as (other & Hother & H).
  apply andb_true_iff in H as [Hlen Hidx].
  apply Z.ltb_lt in Hlen. apply Z.eqb_eq, indexOf_zero in Hidx.
  unfold JS.length in Hlen.
  apply leaf_structs_In in Hs as [_ Hno]. apply Hno.
  exists other. apply leaf_structs_In in Hother as [Hother _].
  split; [done|]. split; [lia|]. by apply starts_with_is_prefix.
Qed.

Lemma primitive_entries_In (graph : ObjectGraph) (entry : string) :
  In entry (primitive_entries graph)
  <-> exists id key, In id (ids graph)
                     /\ In key (getObjectKeys graph id)
                     /\ isType graph (lookup graph key (Some id)) = true
                     /\ entry = getShortestKey graph id +:+ "." +:+ key.
Proof.
  unfold primitive_entries. rewrite reduce_concat_concat, in_concat. split.
  - intros (l & Hl & Hentry). apply in_map_iff in Hl as (id & <- & Hid).
    unfold primitives_of in Hentry.
    apply in_map_iff in Hentry as (key & <- & Hkey).
    apply filter_In in Hkey as [Hkey Htype]. eauto 8.
  - intros (id & key & Hid & Hkey & Htype & ->).
    exists (primitives_of graph id). split; [by apply in_map|].
    unfold primitives_of. apply in_map_iff. exists key. split; [done|].
    by apply filter_In.
Qed.

(** A primitive-valued key of a well-formed identifier is reported under
    the identifier's shortest key, unless it is a reserved name and the
    object found at that shortest key is a function. *)
Theorem primitives_complete (graph : ObjectGraph) (id : jsval) (key : string) :
  In id (getAllIds graph) -> isNaN id = false ->
  In key (getObjectKeys graph id) ->
  isType graph (lookup graph key (Some id)) = true ->
  dot_free key = true ->
  isFunction graph (lookup graph (getShortestKey graph id) None) = false
  \/ ~ In key reserved ->
  In (getShortestKey graph id +:+ "." +:+ key) (primitives graph).
Proof.
  intros Hid Hnan Hkey Htype Hfree Hkeep.
  unfold primitives. apply sort_strings_In, filter_In. split.
  - apply primitive_entries_In. exists id, key.
    split; [by apply ids_In | done].
  - apply not_false_iff_true. intros Hdrop.
    apply keep_primitive_false in Hdrop as [Hf Hres]; [|done].
    destruct Hkeep; congruence.
Qed.

Lemma primitives_complete_witness :
  In "f.own" (primitives demo_graph).
Proof.
  apply (primitives_complete demo_graph (VNum 10) "own");
    [simpl; auto | reflexivity | simpl; auto | reflexivity | reflexivity |].
  right. simpl. intros [H|[H|[H|[H|[]]]]]; discriminate H.
Defined.

Lemma dot_free_rev_app (s t : string) :
  dot_free (String.rev_app s t) = dot_free s && dot_free t.
Proof.
  revert t. induction s as [|c s IH]; intros t; simpl; [done|].
  rewrite IH. simpl. destruct (Ascii.eqb c "."), (dot_free s); done.
Qed.

Lemma split_dot_go_segments (s : string) :
  forall cur, dot_free cur = true ->
    Forall (fun seg => dot_free seg = true) (JS.split_dot_go cur s).
Proof.
  induction s as [|c s IH]; intros cur Hcur; simpl.
  - constructor; [|constructor]. unfold String.rev.
    by rewrite dot_free_rev_app, Hcur.
  - destruct (Ascii.eqb c ".") eqn:Hc.
    + constructor; [|by apply IH]. unfold String.rev.
      by rewrite dot_free_rev_app, Hcur.
    + apply IH. simpl. by rewrite Hc.
Qed.

Lemma split_dot_go_two (s : string) :
  forall cur, dot_free s = false -> (2 <= List.length (JS.split_dot_go cur s))%nat.
Proof.
  induction s as [|c s IH]; intros cur Hs; simpl in *; [done|].
  destruct (Ascii.eqb c ".").
  - pose proof (split_dot_go_nonempty "" s).
    destruct (JS.split_dot_go "" s); [done | simpl; lia].
  - by apply IH.
Qed.

Lemma join_snoc (sep x : string) (l : list string) :
  l <> [] -> JS.join sep (l ++ [x]) = JS.join sep l +:+ sep +:+ x.
Proof.
  induction l as [|y l IH]; [done|]. intros _.
  destruct l as [|z l]; [done|].
  change (JS.join sep ((y :: z :: l) ++ [x]))
    with (y +:+ sep +:+ JS.join sep ((z :: l) ++ [x])).
  rewrite IH by done.
  change (JS.join sep (y :: z :: l)) with (y +:+ sep +:+ JS.join sep (z :: l)).
  by rewrite !string_app_assoc.
Qed.

(** The filter's reading of an entry loses nothing: an entry with a dot
    is its prefix, a dot and its postfix; an entry without a dot has the
    empty prefix and is its own postfix; the postfix never contains a
    dot. *)
Theorem primitive_decomposition (key : string) :
  (dot_free key = false ->
   key = primitive_prefix key +:+ "." +:+ primitive_postfix key)
  /\ (dot_free key = true ->
      primitive_prefix key = "" /\ primitive_postfix key = key)
  /\ dot_free (primitive_postfix key) = true.
Proof.
  unfold primitive_prefix, primitive_postfix, JS.slice_init, JS.last_elem.
  pose proof (split_dot_go_nonempty "" key) as Hne.
  pose proof (join_split_dot_go key "") as Hjoin.
  pose proof (split_dot_go_segments key "" eq_refl) as Hseg.
  fold (JS.split_dot key) in Hne, Hjoin, Hseg.
  split; [|split].
  - intros Hdot. pose proof (split_dot_go_two key "" Hdot) as Hlen.
    fold (JS.split_dot key) in Hlen.
    rewrite (app_removelast_last "" Hne) in Hjoin at 1.
    rewrite join_snoc in Hjoin; [by rewrite Hjoin|].
    intros Hnil. rewrite (app_removelast_last "" Hne), Hnil in Hlen.
    simpl in Hlen. lia.
  - intros Hfree. unfold JS.split_dot.
    by rewrite (split_dot_go_dot_free key "" Hfree).
  - rewrite List.Forall_forall in Hseg. apply Hseg.
    destruct (exists_last Hne) as (l & x & ->). rewrite last_last.
    apply in_or_app. right. by left.
Qed.

Lemma primitive_decomposition_witness :
  "a.b.length" = primitive_prefix "a.b.length" +:+ "." +:+ primitive_postfix "a.b.length"
  /\ primitive_prefix "length" = "".
Proof.
  destruct (primitive_decomposition "a.b.length") as (H1 & _).
  destruct (primitive_decomposition "length") as (_ & H2 & _).
  split; [by apply H1 | by apply H2].
Defined.

Lemma sort_values_perm (a b : list jsval) :
  a ≡ₚ b -> sort_values a = sort_values b.
Proof.
  intros Hperm. apply sort_values_unique.
  - unfold sort_values. by rewrite merge_sort_Permutation.
  - apply Sorted_merge_sort; apply _.
Qed.

(** The lists do not depend on the order in which the library enumerates
    the identifiers, nor on the malformed identifiers it reports: two
    enumerations with the same well-formed identifiers give the same
    [ids] and the same three lists. *)
Theorem lists_enumeration_independent (graph : ObjectGraph) (all1 all2 : list jsval) :
  List.filter (fun id => negb (isNaN id)) all1
    ≡ₚ List.filter (fun id => negb (isNaN id)) all2 ->
  ids (with_ids graph all1) = ids (with_ids graph all2)
  /\ apis (with_ids graph all1) = apis (with_ids graph all2)
  /\ structs (with_ids graph all1) = structs (with_ids graph all2)
  /\ primitives (with_ids graph all1) = primitives (with_ids graph all2).
Proof.
  intros Hperm.
  assert (ids (with_ids graph all1) = ids (with_ids graph all2)) as Hids
    by (unfold ids; simpl; by apply sort_values_perm).
  split; [exact Hids|].
  unfold structs, allStructs, apis, primitives, primitive_entries.
  rewrite Hids. done.
Qed.

Lemma lists_enumeration_independent_witness :
  apis (with_ids demo_graph [VNum 10; VNaN; VNum 4])
  = apis (with_ids demo_graph [VNum 4; VUndefined; VNum 10; VNaN]).
Proof.
  destruct (lists_enumeration_independent demo_graph
              [VNum 10; VNaN; VNum 4] [VNum 4; VUndefined; VNum 10; VNaN])
    as (_ & H & _); [|exact H].
  simpl. apply Permutation_swap.
Defined.

(** ** The readiness gate on arbitrary sequences of completions *)

Section GateTraces.

Variable fromJSON : json -> ObjectGraph.
Variable intersectDifference :
  list ObjectGraph -> list ObjectGraph -> option ObjectGraph.

#[local] Abbreviation graphs' := (getObjectGraphs fromJSON).
#[local] Abbreviation step := (on_completion fromJSON intersectDifference).
#[local] Abbreviation run' := (run fromJSON intersectDifference).
#[local] Abbreviation after inc exc pg cs :=
  (analyze_then fromJSON intersectDifference inc exc pg cs).

Lemma run_snoc (g : gate) (cs : list completion) (c : completion) :
  run' g (cs ++ [c]) = step (run' g cs) c.
Proof. unfold run. by rewrite foldl_app. Qed.

Lemma doAnalyses_frame (ing exg : list ObjectGraph) (pg : gmap string string)
    (sel : string) :
  sel <> "#apis" -> sel <> "#structs" -> sel <> "#primitives" ->
  fst (doAnalyses intersectDifference ing exg pg) !! sel = pg !! sel.
Proof.
  intros H1 H2 H3. unfold doAnalyses.
  destruct (intersectDifference ing exg) as [graph|]; simpl.
  - rewrite write_regions_lookup, clear_regions_lookup. case_selectors.
  - rewrite clear_regions_lookup. case_selectors.
Qed.

(** What each of the two callbacks does to the gate. *)
Lemma step_in (g : gate) (a : list json) :
  inGraphs (step g (InLoaded a)) = Some (graphs' a)
  /\ exGraphs (step g (InLoaded a)) = exGraphs g
  /\ match exGraphs g with
     | Some e =>
         invocations (step g (InLoaded a)) = invocations g ++ [(graphs' a, e)]
         /\ page (step g (InLoaded a))
            = fst (doAnalyses intersectDifference (graphs' a) e (page g))
     | None =>
         invocations (step g (InLoaded a)) = invocations g
         /\ page (step g (InLoaded a)) = page g
     end.
Proof. unfold on_completion, next; simpl. destruct (exGraphs g); done. Qed.

Lemma step_ex (g : gate) (b : list json) :
  inGraphs (step g (ExLoaded b)) = inGraphs g
  /\ exGraphs (step g (ExLoaded b)) = Some (graphs' b)
  /\ match inGraphs g with
     | Some i =>
         invocations (step g (ExLoaded b)) = invocations g ++ [(i, graphs' b)]
         /\ page (step g (ExLoaded b))
            = fst (doAnalyses intersectDifference i (graphs' b) (page g))
     | None =>
         invocations (step g (ExLoaded b)) = invocations g
         /\ page (step g (ExLoaded b)) = page g
     end.
Proof. unfold on_completion, next; simpl. destruct (inGraphs g); done. Qed.

(** The side variables after the synchronous part of [analyze()]: the
    include side always waits for its batch, also when there is no include
    row; the exclude side is complete from the start exactly when there is
    no exclude row. *)
Theorem analyze_initial_sides (inc exc : list input) (pg : gmap string string) :
  inGraphs (fst (analyze inc exc pg)) = None
  /\ (exGraphs (fst (analyze inc exc pg)) = Some [] <-> exc = [])
  /\ (exGraphs (fst (analyze inc exc pg)) = None <-> exc <> [])
  /\ after inc exc pg [] = fst (analyze inc exc pg).
Proof.
  unfold analyze_then. rewrite analyze_initial. simpl.
  destruct exc; repeat split; intros; first [done | congruence].
Qed.

Lemma run_waits_in (cs : list completion) :
  forall g, inGraphs g = None ->
    (forall a, ~ In (InLoaded a) cs) ->
    inGraphs (run' g cs) = None
    /\ invocations (run' g cs) = invocations g
    /\ page (run' g cs) = page g.
Proof.
  induction cs as [|c cs IH] using rev_ind; intros g Hg Hno; [done|].
  rewrite run_snoc.
  destruct (IH g Hg) as (Hin & Hlog & Hpage).
  { intros a Ha. apply (Hno a), in_or_app. by left. }
  destruct c as [a|b].
  { exfalso. apply (Hno a), in_or_app. right. by left. }
  destruct (step_ex (run' g cs) b) as (H1 & _ & H3).
  rewrite Hin in H1, H3. destruct H3 as [H3 H4].
  by rewrite H1, H3, H4.
Qed.

Lemma run_waits_ex (cs : list completion) :
  forall g, exGraphs g = None ->
    (forall b, ~ In (ExLoaded b) cs) ->
    exGraphs (run' g cs) = None
    /\ invocations (run' g cs) = invocations g
    /\ page (run' g cs) = page g.
Proof.
  induction cs as [|c cs IH] using rev_ind; intros g Hg Hno; [done|].
  rewrite run_snoc.
  destruct (IH g Hg) as (Hex & Hlog & Hpage).
  { intros b Hb. apply (Hno b), in_or_app. by left. }
  destruct c as [a|b].
  2: { exfalso. apply (Hno b), in_or_app. right. by left. }
  destruct (step_in (run' g cs) a) as (_ & H2 & H3).
  rewrite Hex in H2, H3. destruct H3 as [H3 H4].
  by rewrite H2, H3, H4.
Qed.

(** Whatever callbacks run and however often, the engine is not invoked
    and the page keeps its previous content as long as the include batch
    has not completed, or, with at least one exclude row, as long as the
    exclude batch has not completed. *)
Theorem gate_stays_closed (inc exc : list input) (pg : gmap string string)
    (cs : list completion) :
  (forall a, ~ In (InLoaded a) cs)
  \/ (exc <> [] /\ forall b, ~ In (ExLoaded b) cs) ->
  invocations (after inc exc pg cs) = []
  /\ page (after inc exc pg cs) = pg.
Proof.
  unfold analyze_then. rewrite analyze_initial. intros [Hno|[Hexc Hno]].
  - match goal with
    | |- context [run' ?g cs] =>
        by destruct (run_waits_in cs g eq_refl Hno) as (_ & -> & ->)
    end.
  - destruct exc; [done|].
    match goal with
    | |- context [run' ?g cs] =>
        by destruct (run_waits_ex cs g eq_refl Hno) as (_ & -> & ->)
    end.
Qed.

(** The log of invocations only grows, by at most one invocation per
    callback. *)
Theorem invocations_bounded (g : gate) (cs : list completion) :
  exists more, invocations (run' g cs) = invocations g ++ more
               /\ (List.length more <= List.length cs)%nat.
Proof.
  induction cs as [|c cs (more & Hlog & Hlen)] using rev_ind.
  - exists []. by rewrite app_nil_r.
  - rewrite run_snoc, List.length_app. simpl.
    destruct c as [a|b].
    + destruct (step_in (run' g cs) a) as (_ & _ & H).
      destruct (exGraphs (run' g cs)) as [e|]; destruct H as [-> _].
      * exists (more ++ [(graphs' a, e)]). rewrite Hlog, <- app_assoc.
        split; [done|]. rewrite List.length_app. simpl. lia.
      * exists more. split; [done | lia].
    + destruct (step_ex (run' g cs) b) as (_ & _ & H).
      destruct (inGraphs (run' g cs)) as [i|]; destruct H as [-> _].
      * exists (more ++ [(i, graphs' b)]). rewrite Hlog, <- app_assoc.
        split; [done|]. rewrite List.length_app. simpl. lia.
      * exists more. split; [done | lia].
Qed.

(** Once both side variables are set, every further callback invokes the
    engine once more: nothing records that it already ran. *)
Theorem gate_open_fires (g : gate) (cs : list completion) :
  inGraphs g <> None -> exGraphs g <> None ->
  List.length (invocations (run' g cs))
  = (List.length (invocations g) + List.length cs)%nat
  /\ inGraphs (run' g cs) <> None /\ exGraphs (run' g cs) <> None.
Proof.
  intros Hin Hex.
  induction cs as [|c cs (Hlen & Hin' & Hex')] using rev_ind;
    [by rewrite Nat.add_0_r|].
  rewrite run_snoc.
  destruct (inGraphs (run' g cs)) as [i|] eqn:Ei; [|done].
  destruct (exGraphs (run' g cs)) as [e|] eqn:Ee; [|done].
  destruct c as [a|b].
  - destruct (step_in (run' g cs) a) as (H1 & H2 & H3).
    rewrite Ee in H2, H3. destruct H3 as [H3 _]. rewrite H1, H2, H3.
    rewrite !List.length_app, Hlen. simpl. split; [lia | done].
  - destruct (step_ex (run' g cs) b) as (H1 & H2 & H3).
    rewrite Ei in H1, H3. destruct H3 as [H3 _]. rewrite H1, H2, H3.
    rewrite !List.length_app, Hlen. simpl. split; [lia | done].
Qed.

(** Whatever callbacks run, the text of every selector other than the
    three display regions stays what it was. *)
Theorem run_frame (g : gate) (cs : list completion) (sel : string) :
  sel <> "#apis" -> sel <> "#structs" -> sel <> "#primitives" ->
  page (run' g cs) !! sel = page g !! sel.
Proof.
  intros H1 H2 H3. induction cs as [|c cs IH] using rev_ind; [done|].
  rewrite run_snoc. destruct c as [a|b].
  - destruct (step_in (run' g cs) a) as (_ & _ & H).
    destruct (exGraphs (run' g cs)); destruct H as [_ ->]; [|done].
    by rewrite doAnalyses_frame.
  - destruct (step_ex (run' g cs) b) as (_ & _ & H).
    destruct (inGraphs (run' g cs)); destruct H as [_ ->]; [|done].
    by rewrite doAnalyses_frame.
Qed.

(** The engine only ever receives graphs decoded from completed batches:
    its include sequence is that of a completed include batch, and its
    exclude sequence is that of a completed exclude batch, or the empty
    one set up for an empty exclude-path list. *)
Theorem invocations_from_completions (inc exc : list input)
    (pg : gmap string string) (cs : list completion)
    (ing exg : list ObjectGraph) :
  In (ing, exg) (invocations (after inc exc pg cs)) ->
  (exists a, In (InLoaded a) cs /\ ing = graphs' a)
  /\ ((exc = [] /\ exg = []) \/ exists b, In (ExLoaded b) cs /\ exg = graphs' b).
Proof.
  set (okin := fun (cs : list completion) (i : list ObjectGraph) =>
                 exists a, In (InLoaded a) cs /\ i = graphs' a).
  set (okex := fun (cs : list completion) (e : list ObjectGraph) =>
                 (exc = [] /\ e = [])
                 \/ exists b, In (ExLoaded b) cs /\ e = graphs' b).
  assert (forall cs c i, okin cs i -> okin (cs ++ [c]) i) as Hmono_in.
  { intros l c i (a & Ha & ->). exists a. split; [|done].
    apply in_or_app. by left. }
  assert (forall cs c e, okex cs e -> okex (cs ++ [c]) e) as Hmono_ex.
  { intros l c e [?|(b & Hb & ->)]; [by left|]. right. exists b.
    split; [|done]. apply in_or_app. by left. }
  assert ((forall i, inGraphs (after inc exc pg cs) = Some i -> okin cs i)
          /\ (forall e, exGraphs (after inc exc pg cs) = Some e -> okex cs e)
          /\ (forall i e, In (i, e) (invocations (after inc exc pg cs)) ->
                okin cs i /\ okex cs e)) as (_ & _ & H); [|apply H].
  clear ing exg. unfold analyze_then.
  induction cs as [|c cs (IHin & IHex & IHlog)] using rev_ind.
  - rewrite analyze_initial. simpl. split; [done|]. split; [|done].
    intros e He. left. destruct exc; [|done]. by injection He as <-.
  - rewrite run_snoc.
    assert (forall a, okin (cs ++ [InLoaded a]) (graphs' a)) as Hnew_in.
    { intros a. exists a. split; [|done]. apply in_or_app. right. by left. }
    assert (forall b, okex (cs ++ [ExLoaded b]) (graphs' b)) as Hnew_ex.
    { intros b. right. exists b. split; [|done].
      apply in_or_app. right. by left. }
    destruct c as [a|b].
    + destruct (step_in (run' (fst (analyze inc exc pg)) cs) a) as (H1 & H2 & H3).
      rewrite H1, H2. split; [by intros i [= <-]|].
      split; [intros e He; by apply Hmono_ex, IHex|].
      intros i e Hie.
      destruct (exGraphs (run' (fst (analyze inc exc pg)) cs)) as [e'|] eqn:Ee;
        destruct H3 as [H3 _]; rewrite H3 in Hie.
      * apply in_app_or in Hie as [Hie|[[= <- <-]|[]]].
        -- destruct (IHlog i e Hie). split; auto.
        -- split; [done|]. by apply Hmono_ex, IHex.
      * destruct (IHlog i e Hie). split; auto.
    + destruct (step_ex (run' (fst (analyze inc exc pg)) cs) b) as (H1 & H2 & H3).
      rewrite H1, H2. split; [intros i Hi; by apply Hmono_in, IHin|].
      split; [by intros e [= <-]|].
      intros i e Hie.
      destruct (inGraphs (run' (fst (analyze inc exc pg)) cs)) as [i'|] eqn:Ei;
        destruct H3 as [H3 _]; rewrite H3 in Hie.
      * apply in_app_or in Hie as [Hie|[[= <- <-]|[]]].
        -- destruct (IHlog i e Hie). split; auto.
        -- split; [|done]. by apply Hmono_in, IHin.
      * destruct (IHlog i e Hie). split; auto.
Qed.

End GateTraces.

Lemma gate_stays_closed_witness :
  page (analyze_then (fun _ => demo_graph) (fun _ _ => Some demo_graph)
          [ {| value := "chrome 56" |} ] [ {| value := "firefox 50" |} ]
          {[ "#apis" := "old" ]} [InLoaded [JNull]; InLoaded [JNull]])
  = {[ "#apis" := "old" ]}.
Proof.
  apply (gate_stays_closed (fun _ => demo_graph) (fun _ _ => Some demo_graph)).
  right. split; [discriminate|].
  intros b [H|[H|[]]]; discriminate H.
Defined.

Lemma gate_open_fires_witness :
  List.length
    (invocations
       (run (fun _ => demo_graph) (fun _ _ => Some demo_graph)
          {| inGraphs := Some []; exGraphs := Some []; page := ∅;
             invocations := [] |}
          [ExLoaded []; InLoaded [JNull]; ExLoaded []]))
  = 3%nat.
Proof.
  destruct (gate_open_fires (fun _ => demo_graph) (fun _ _ => Some demo_graph)
              {| inGraphs := Some []; exGraphs := Some []; page := ∅;
                 invocations := [] |}
              [ExLoaded []; InLoaded [JNull]; ExLoaded []]) as [H _];
    [discriminate | discriminate | exact H].
Defined.

Lemma run_frame_witness :
  page (run (fun _ => demo_graph) (fun _ _ => Some demo_graph)
          {| inGraphs := None; exGraphs := Some []; page := {[ "#title" := "t" ]};
             invocations := [] |}
          [InLoaded [JNull]]) !! "#title"
  = Some "t".
Proof.
  rewrite (run_frame (fun _ => demo_graph) (fun _ _ => Some demo_graph))
    by discriminate.
  reflexivity.
Defined.

Lemma invocations_from_completions_witness :
  exists a, In (InLoaded a) [InLoaded [JNull]; ExLoaded []]
            /\ [demo_graph] = getObjectGraphs (fun _ => demo_graph) a.
Proof.
  destruct (invocations_from_completions (fun _ => demo_graph)
              (fun _ _ => Some demo_graph) [ {| value := "chrome 56" |} ] [] ∅
              [InLoaded [JNull]; ExLoaded []] [demo_graph] [])
    as [H _]; [|exact H].
  simpl. auto.
Defined.

(** ** Input rows *)

Lemma removeChild_absent (container : list row) (div : nat) :
  ~ In div (List.map row_node container) -> removeChild container div = None.
Proof.
  induction container as [|r rest IH]; simpl; [done|]. intros Hno.
  destruct (Nat.eqb_spec (row_node r) div) as [Heq|Hne]; [by destruct Hno; left|].
  rewrite IH; [done|]. intros H. apply Hno. by right.
Qed.

Lemma removeChild_app_fresh (container more : list row) (div : nat) :
  ~ In div (List.map row_node container) ->
  removeChild (container ++ more) div = (app container) <$> removeChild more div.
Proof.
  induction container as [|r rest IH]; simpl; intros Hno.
  - by destruct (removeChild more div).
  - destruct (Nat.eqb_spec (row_node r) div) as [Heq|Hne]; [by destruct Hno; left|].
    rewrite IH by (intros H; apply Hno; by right).
    by destruct (removeChild more div).
Qed.

(** Adding a row and clicking its remove button gives the container
    back, the new row appearing after the rows already there; the added
    input is empty and bound to the datalist. *)
Theorem addinputTo_rm_click (container : list row) (div : nat) (datalist_id : string) :
  ~ In div (List.map row_node container) ->
  rm_click (addinputTo div container datalist_id) div = container
  /\ querySelectorAll_input (addinputTo div container datalist_id)
     = querySelectorAll_input container ++ [ {| value := "" |} ]
  /\ last (row_list <$> addinputTo div container datalist_id) = Some datalist_id.
Proof.
  intros Hfresh. unfold rm_click, addinputTo, querySelectorAll_input.
  split; [|split].
  - rewrite removeChild_app_fresh by done. simpl.
    rewrite Nat.eqb_refl. simpl. by rewrite app_nil_r.
  - by rewrite List.map_app.
  - rewrite fmap_app. apply last_snoc.
Qed.

Lemma addinputTo_rm_click_witness :
  rm_click (addinputTo 7 [ {| row_node := 3; row_list := "environments";
                              row_input := {| value := "chrome 56" |};
                              row_rm := "-" |} ] "environments") 7
  = [ {| row_node := 3; row_list := "environments";
         row_input := {| value := "chrome 56" |}; row_rm := "-" |} ].
Proof.
  apply addinputTo_rm_click. simpl. intros [H|[]]. discriminate H.
Defined.

(** In a container whose rows are distinct nodes, a click on a remove
    button detaches exactly the row of that button: the other rows stay,
    in order, with their inputs; a click for a row that is not in the
    container changes nothing. *)
Theorem rm_click_exact (container : list row) (div : nat) :
  NoDup (List.map row_node container) ->
  rm_click container div
  = List.filter (fun r => negb (Nat.eqb (row_node r) div)) container
  /\ (In div (List.map row_node container) ->
      S (List.length (rm_click container div)) = List.length container)
  /\ (~ In div (List.map row_node container) -> rm_click container div = container)
  /\ NoDup (List.map row_node (rm_click container div)).
Proof.
  intros Hnd.
  assert (rm_click container div
          = List.filter (fun r => negb (Nat.eqb (row_node r) div)) container) as Heq.
  { unfold rm_click. induction container as [|r rest IH]; simpl; [done|].
    simpl in Hnd. apply NoDup_cons in Hnd as [Hr Hnd].
    destruct (Nat.eqb_spec (row_node r) div) as [Heq|Hne]; simpl.
    - symmetry. apply filter_all. intros r' Hr'. apply negb_true_iff, Nat.eqb_neq.
      intros Heq'. apply Hr, list_elem_of_In, in_map_iff. exists r'.
      split; [congruence | done].
    - specialize (IH Hnd). destruct (removeChild rest div); simpl; by rewrite <- IH. }
  split; [exact Heq|]. split; [|split].
  - intros Hin. unfold rm_click. clear Heq.
    induction container as [|r rest IH]; simpl in *; [done|].
    apply NoDup_cons in Hnd as [Hr Hnd].
    destruct (Nat.eqb_spec (row_node r) div) as [Heq|Hne]; [done|].
    destruct Hin as [Hin|Hin]; [done|]. specialize (IH Hnd Hin).
    destruct (removeChild rest div); simpl in *; lia.
  - intros Hno. unfold rm_click. by rewrite removeChild_absent.
  - rewrite Heq. clear Heq.
    induction container as [|r rest IH]; simpl in *; [constructor|].
    apply NoDup_cons in Hnd as [Hr Hnd].
    destruct (Nat.eqb (row_node r) div); simpl; [by apply IH|].
    apply NoDup_cons. split; [|by apply IH].
    intros Hin. apply Hr. apply list_elem_of_In, in_map_iff in Hin as (r' & Hr' & Hin).
    apply filter_In in Hin as [Hin _].
    apply list_elem_of_In, in_map_iff. by exists r'.
Qed.

Lemma rm_click_exact_witness :
  rm_click [ {| row_node := 1; row_list := "e"; row_input := {| value := "a" |};
                row_rm := "-" |};
             {| row_node := 2; row_list := "e"; row_input := {| value := "b" |};
                row_rm := "-" |} ] 1
  = [ {| row_node := 2; row_list := "e"; row_input := {| value := "b" |};
         row_rm := "-" |} ].
Proof.
  destruct (rm_click_exact
              [ {| row_node := 1; row_list := "e"; row_input := {| value := "a" |};
                   row_rm := "-" |};
                {| row_node := 2; row_list := "e"; row_input := {| value := "b" |};
                   row_rm := "-" |} ] 1) as [H _]; [|exact H].
  simpl. apply NoDup_cons. split; [|apply NoDup_singleton].
  intros H%list_elem_of_In. destruct H as [H|[]]. discriminate H.
Defined.

(** A row added and left untouched contributes the bare routing prefix to
    the retrieval paths of its container, after the paths of the rows
    already there; on the exclude side it makes the gate wait for the
    exclude batch. *)
Theorem addinputTo_paths (container : list row) (div : nat) (datalist_id : string)
    (inc : list input) (pg : gmap string string) :
  inputPaths (querySelectorAll_input (addinputTo div container datalist_id))
  = inputPaths (querySelectorAll_input container) ++ [Some "/data/"]
  /\ exGraphs (fst (analyze inc
                      (querySelectorAll_input (addinputTo div container datalist_id))
                      pg)) = None.
Proof.
  unfold addinputTo, querySelectorAll_input, analyze. simpl.
  rewrite List.map_app, !inputPaths_map, List.map_app, List.length_app.
  split; [done|]. simpl.
  rewrite !List.length_map.
  destruct (Z.eqb_spec (Z.of_nat (List.length container + 1)) 0); [lia | done].
Qed.

(** ** The catalog callback *)

(** When the catalog arrives, the suggestion list gains one [<option>]
    per leaf value of the catalog, in depth-first order, after the
    options it already holds. *)
Theorem on_list_loaded_options (map : json) (environments : list string) :
  on_list_loaded map environments
  = environments
    ++ List.map (fun path => JS.join " " (drop_leading_empty path)) (leaf_paths map)
  /\ List.length (on_list_loaded map environments)
     = (List.length environments + List.length (leaf_paths map))%nat.
Proof.
  assert (on_list_loaded map environments
          = environments
            ++ List.map (fun path => JS.join " " (drop_leading_empty path))
                 (leaf_paths map)) as Heq.
  { unfold on_list_loaded, addOpts.
    rewrite addOpts_loop_invariant by lia. rewrite take_ge by lia.
    f_equal. unfold includeExcludeOpts. rewrite getKeys_leaf_paths.
    apply List.map_ext. intros path. apply foldl_extend_path_root. }
  split; [exact Heq|]. by rewrite Heq, List.length_app, List.length_map.
Qed.

(** ** The reserved-key filter, entry by entry *)

(** A string has no dot, or reads as a text, a dot and a dot-free rest. *)
Lemma last_dot (s : string) :
  dot_free s = true
  \/ exists a k, s = a +:+ "." +:+ k /\ dot_free k = true.
Proof.
  induction s as [|c s [Hfree|(a & k & -> & Hk)]]; [by left| |].
  - destruct (Ascii.eqb_spec c ".") as [->|Hc].
    + right. by exists "", s.
    + left. simpl. apply Ascii.eqb_neq in Hc. by rewrite Hc, Hfree.
  - right. by exists (String c a), k.
Qed.

Lemma reserved_dot_free (key : string) : In key reserved -> dot_free key = true.
Proof. intros [<-|[<-|[<-|[<-|[]]]]]; reflexivity. Qed.

(** C3 as amended: every entry of the primitive list reads in exactly one
    way as [prefix.key] with [key] free of dots, [key] being the text after
    its last dot.  Read that way, the entry is dropped exactly when the
    object looked up at [prefix] is a function and [key] is one of
    "arguments", "caller", "length", "name"; an entry with one of those
    keys is retained whenever the object looked up at [prefix] is not a
    function. *)
Theorem reserved_key_filter (graph : ObjectGraph) :
  (forall entry, In entry (primitive_entries graph) ->
     exists prefix key,
       entry = prefix +:+ "." +:+ key /\ dot_free key = true)
  /\ (forall prefix key prefix' key',
        dot_free key = true -> dot_free key' = true ->
        prefix +:+ "." +:+ key = prefix' +:+ "." +:+ key' ->
        prefix = prefix' /\ key = key')
  /\ (forall prefix key, dot_free key = true ->
        In (prefix +:+ "." +:+ key) (primitive_entries graph) ->
        (~ In (prefix +:+ "." +:+ key) (primitives graph)
         <-> isFunction graph (lookup graph prefix None) = true
             /\ In key ["arguments"; "caller"; "length"; "name"]))
  /\ (forall prefix key,
        In key ["arguments"; "caller"; "length"; "name"] ->
        isFunction graph (lookup graph prefix None) = false ->
        In (prefix +:+ "." +:+ key) (primitive_entries graph) ->
        In (prefix +:+ "." +:+ key) (primitives graph)).
Proof.
  split; [|split; [|split]].
  - intros entry Hin.
    apply primitive_entries_In in Hin as (id & key0 & _ & _ & _ & ->).
    destruct (last_dot key0) as [Hfree|(a & k & -> & Hk)]; [eauto|].
    exists (getShortestKey graph id +:+ "." +:+ a), k.
    split; [|done]. by rewrite !string_app_assoc.
  - intros prefix key prefix' key' Hfree Hfree' Heq.
    destruct (primitive_prefix_postfix prefix key Hfree) as [Hp Hk].
    destruct (primitive_prefix_postfix prefix' key' Hfree') as [Hp' Hk'].
    rewrite Heq in Hp, Hk. split; congruence.
  - intros prefix key Hfree Hin.
    destruct (reserved_key_dot_free graph prefix key Hfree) as (_ & Hiff & _).
    rewrite Hiff. split.
    + intros Hno.
      destruct (isFunction graph (lookup graph prefix None)) eqn:Hf.
      * split; [done|].
        destruct (existsb (fun name => String.eqb name key) reserved) eqn:He.
        -- by apply reserved_In.
        -- exfalso. apply Hno. split; [done|]. intros [_ Hres].
           apply reserved_In in Hres. congruence.
      * exfalso. apply Hno. split; [done|]. by intros [? _].
    + intros Hdrop [_ Hno]. by apply Hno.
  - intros prefix key Hres Hnot Hin.
    destruct (reserved_key_dot_free graph prefix key (reserved_dot_free key Hres))
      as (_ & _ & Hkeep).
    by apply Hkeep.
Qed.

Lemma reserved_key_filter_witness :
  ~ In "f.length" (primitives demo_graph)
  /\ In "a.b.c.length" (primitives demo_graph)
  /\ ~ In ("o.g" +:+ "." +:+ "name") (primitives dotted_graph).
Proof.
  destruct (reserved_key_filter demo_graph) as (_ & _ & Hdrop & Hkeep).
  destruct (reserved_key_filter dotted_graph) as (_ & _ & Hdrop' & _).
  split; [|split].
  - apply (Hdrop "f" "length"); [reflexivity | vm_compute; auto |].
    split; [reflexivity | simpl; auto].
  - apply (Hkeep "a.b.c" "length"); [simpl; auto | reflexivity |].
    vm_compute. do 3 right. left. reflexivity.
  - apply (Hdrop' "o.g" "name"); [reflexivity | vm_compute; auto |].
    split; [reflexivity | simpl; auto].
Defined.

(** C3 as stated fails on a property name with a dot: the entry rendered
    for the object [o], which is not a function, and its key ["g.name"],
    which is not a reserved name, is dropped, because the object found at
    ["o.g"] is a function. *)
Lemma reserved_key_filter_counterexample :
  primitives_of dotted_graph (VNum 1) = ["o" +:+ "." +:+ "g.name"]
  /\ In ("o" +:+ "." +:+ "g.name") (primitive_entries dotted_graph)
  /\ isFunction dotted_graph (lookup dotted_graph "o" None) = false
  /\ ~ In "g.name" ["arguments"; "caller"; "length"; "name"]
  /\ ~ In ("o" +:+ "." +:+ "g.name") (primitives dotted_graph).
Proof.
  split; [reflexivity|]. split; [vm_compute; auto|]. split; [reflexivity|].
  split.
  - simpl. intros [H|[H|[H|[H|[]]]]]; discriminate H.
  - vm_compute. intros [].
Qed.
